(** * NovelSummary: the chunked summarization pipeline of [index.js]

    A shallow embedding of [chunkText] and [summarizeLongText] and of the
    part of the [/scrape] handler that calls them, with the properties the
    specification states about them.

    - A JavaScript string is the list of its UTF-16 code units.
    - A JavaScript number that counts or indexes is an integer: [Z] where
      the source lets it be zero or negative ([chunkSize], the index of
      [chunkText]), [nat] for an array index.
    - A [for] loop whose exit the source does not bound is a [Fixpoint]
      over an iteration budget that answers "no result" when the budget
      runs out; the theorems say when a budget suffices.
    - [await ai.models.generateContent(..)] is a call to a provider that
      either fulfils with a response or rejects; the run records every
      call and its settlement in a trace. *)

From Stdlib Require Import ZArith Lia String Ascii DecimalString.
From stdpp Require Import base tactics option list.

Local Open Scope Z_scope.

(** ** Strings *)

Module JsString.

(** A string value: its sequence of UTF-16 code units. *)
Definition t : Type := list N.

(** The text of a source literal (all literals of the program are ASCII). *)
Definition lit (s : string) : t := map N_of_ascii (list_ascii_of_string s).

(** [s.length] *)
Definition len (s : t) : Z := Z.of_nat (length s).

(** [s.slice(start, end)] (ECMAScript String.prototype.slice): a negative
    bound counts from the end, both bounds are clamped to [0, s.length],
    and the result is empty when the bounds cross. *)
Definition slice (s : t) (start end_ : Z) : t :=
  let from := if start <? 0 then Z.max (len s + start) 0 else Z.min start (len s) in
  let to := if end_ <? 0 then Z.max (len s + end_) 0 else Z.min end_ (len s) in
  take (Z.to_nat (Z.max (to - from) 0)) (drop (Z.to_nat from) s).

(** White space and line terminators, the code units [trim] strips:
    TAB, LF, VT, FF, CR, SP, NBSP, U+1680, U+2000..U+200A, U+2028,
    U+2029, U+202F, U+205F, U+3000 and U+FEFF. *)
Definition is_white_space (c : N) : bool :=
  ((9 <=? c) && (c <=? 13) || (c =? 32) || (c =? 160) || (c =? 5760)
   || (8192 <=? c) && (c <=? 8202) || (c =? 8232) || (c =? 8233)
   || (c =? 8239) || (c =? 8287) || (c =? 12288) || (c =? 65279))%N.

Fixpoint trimStart (s : t) : t :=
  match s with
  | c :: s' => if is_white_space c then trimStart s' else s
  | [] => []
  end.

Definition trimEnd (s : t) : t := reverse (trimStart (reverse s)).

(** [s.trim()] *)
Definition trim (s : t) : t := trimEnd (trimStart s).

(** [`${n}`] for a non-negative integer: its decimal digits. *)
Definition of_number (n : N) : t := lit (NilZero.string_of_uint (N.to_uint n)).

(** [parts.join(sep)] on an array of strings. *)
Fixpoint join (sep : t) (parts : list t) : t :=
  match parts with
  | [] => []
  | [p] => p
  | p :: rest => p ++ sep ++ join sep rest
  end.

(** [needle] occurs in [s] as a contiguous run of code units. *)
Definition occurs_in (needle s : t) : Prop :=
  exists pre post, s = pre ++ needle ++ post.

Fixpoint starts_with (needle s : t) : bool :=
  match needle, s with
  | [], _ => true
  | _ :: _, [] => false
  | a :: needle', b :: s' => (a =? b)%N && starts_with needle' s'
  end.

(** [s.includes(needle)] *)
Fixpoint includes (s needle : t) : bool :=
  starts_with needle s ||
  match s with
  | [] => false
  | _ :: s' => includes s' needle
  end.

End JsString.

Abbreviation jsstring := JsString.t.

(** ** The chunker *)

(** [function chunkText(s, chunkSize = 6000)]:
    [for (let i = 0; i < s.length; i += chunkSize)
       chunks.push(s.slice(i, i + chunkSize));]
    The loop test comes first, so a budget of [n] allows [n] iterations. *)
Fixpoint chunkText_loop (budget : nat) (s : jsstring) (chunkSize : Z)
    (i : Z) (chunks : list jsstring) : option (list jsstring) :=
  if i <? JsString.len s then
    match budget with
    | O => None
    | S budget' =>
        chunkText_loop budget' s chunkSize (i + chunkSize)
          (chunks ++ [JsString.slice s i (i + chunkSize)])
    end
  else Some chunks.

(** The default value of the parameter [chunkSize]. *)
Definition default_chunkSize : Z := 6000.

(** [chunkText(s, chunkSize)]; [None] stands for a loop that does not end
    ([chunkText_budget_enough] shows the budget here is never the reason). *)
Definition chunkText (s : jsstring) (chunkSize : Z) : option (list jsstring) :=
  chunkText_loop (length s) s chunkSize 0 [].

(** The least integer that is at least [a / b], for [0 < b]. *)
Definition ceil_div (a b : Z) : Z := (a + b - 1) / b.

(** ** The provider and the runs of asynchronous code *)

(** The argument of [ai.models.generateContent]. *)
Record GenerateContentParameters : Type :=
  { model : jsstring; contents : jsstring }.

(** Its response; the accessor [text] is [undefined] when the response
    carries no text part. *)
Record GenerateContentResponse : Type :=
  { text : option jsstring }.

(** A thrown value, as far as the handler reads it ([error.message]). *)
Record JsError : Type :=
  { name : jsstring; message : jsstring }.

(** How the promise of one call settles. *)
Inductive Settled : Type :=
  | Fulfilled (resp : GenerateContentResponse)
  | Rejected (reason : JsError).

(** What a run records, oldest first: a call being issued, a call settling. *)
Inductive Event : Type :=
  | Call (req : GenerateContentParameters)
  | Settle (outcome : Settled).

(** The provider: how it settles a call may depend on every call made
    before it (oldest first) and on the call itself. *)
Definition Provider : Type :=
  list GenerateContentParameters -> GenerateContentParameters -> Settled.

(** How an [async] body ends: [return], an uncaught [throw] (the promise
    rejects), or a loop whose iteration budget ran out. *)
Inductive Completion (A : Type) : Type :=
  | Returned (a : A)
  | Threw (e : JsError)
  | Unfinished.
Arguments Returned {A} a.
Arguments Threw {A} e.
Arguments Unfinished {A}.

(** An [async] computation: run against a provider from a trace, it ends
    in a completion and a longer trace. *)
Definition Async (A : Type) : Type :=
  Provider -> list Event -> Completion A * list Event.

#[global] Instance Async_ret : MRet Async :=
  fun A a ai tr => (Returned a, tr).

#[global] Instance Async_bind : MBind Async :=
  fun A B k m ai tr =>
    match m ai tr with
    | (Returned a, tr') => k a ai tr'
    | (Threw e, tr') => (Threw e, tr')
    | (Unfinished, tr') => (Unfinished, tr')
    end.

Definition throw {A} (e : JsError) : Async A := fun ai tr => (Threw e, tr).

Definition finished {A} (o : option A) : Async A :=
  fun ai tr => (from_option Returned Unfinished o, tr).

(** The calls of a trace, oldest first. *)
Definition requests (tr : list Event) : list GenerateContentParameters :=
  omap (fun ev => match ev with Call req => Some req | Settle _ => None end) tr.

(** [await ai.models.generateContent(req)] *)
Definition generateContent (req : GenerateContentParameters)
    : Async GenerateContentResponse :=
  fun ai tr =>
    let outcome := ai (requests tr) req in
    (match outcome with
     | Fulfilled resp => Returned resp
     | Rejected reason => Threw reason
     end,
     tr ++ [Call req; Settle outcome]).

(** The TypeError of [undefined.trim()]. *)
Definition trim_of_undefined : JsError :=
  {| name := JsString.lit "TypeError";
     message := JsString.lit "Cannot read properties of undefined (reading 'trim')" |}.

(** [resp.text.trim()] *)
Definition text_trim (resp : GenerateContentResponse) : Async jsstring :=
  match text resp with
  | Some t => mret (JsString.trim t)
  | None => throw trim_of_undefined
  end.

(** ** The pipeline *)

Definition LF : jsstring := [10%N].

Definition gemini : jsstring := JsString.lit "gemini-2.5-flash".

(** The template literal of the loop body; [i] is the loop index. *)
Definition chunk_prompt (i : nat) (chunk : jsstring) : jsstring :=
  LF ++ JsString.lit "You are summarizing part "
     ++ JsString.of_number (N.of_nat (i + 1)) ++ JsString.lit "." ++ LF
     ++ JsString.lit "Write 5-8 bullet points covering major events, characters, emotions, clues:"
     ++ LF ++ LF ++ chunk ++ LF.

Definition chunk_request (i : nat) (chunk : jsstring) : GenerateContentParameters :=
  {| model := gemini; contents := chunk_prompt i chunk |}.

(** The template literal of the last call. *)
Definition final_prompt (chunkSummaries : list jsstring) : jsstring :=
  LF ++ JsString.lit "Combine all summaries into a final chapter summary:"
     ++ LF ++ LF ++ JsString.join LF chunkSummaries ++ LF ++ JsString.lit "    ".

Definition final_request (chunkSummaries : list jsstring) : GenerateContentParameters :=
  {| model := gemini; contents := final_prompt chunkSummaries |}.

(** [chunks[i]] inside a template literal; out of range it reads
    [undefined]. *)
Definition at_index (chunks : list jsstring) (i : nat) : jsstring :=
  default (JsString.lit "undefined") (chunks !! i).

(** [for (let i = 0; i < chunks.length; i++) { .. }] of
    [summarizeLongText], from index [i] with [chunkSummaries] so far. *)
Fixpoint summarize_loop (budget : nat) (chunks : list jsstring) (i : nat)
    (chunkSummaries : list jsstring) : Async (list jsstring) :=
  if bool_decide (i < length chunks)%nat then
    match budget with
    | O => finished None
    | S budget' =>
        resp ← generateContent (chunk_request i (at_index chunks i));
        summary ← text_trim resp;
        summarize_loop budget' chunks (i + 1) (chunkSummaries ++ [summary])
    end
  else mret chunkSummaries.

(** [async function summarizeLongText(fullText)] *)
Definition summarizeLongText (fullText : jsstring) : Async jsstring :=
  chunks ← finished (chunkText fullText default_chunkSize);
  chunkSummaries ← summarize_loop (length chunks) chunks 0 [];
  finalResp ← generateContent (final_request chunkSummaries);
  text_trim finalResp.

(** ** The end of the [/scrape] handler *)

Record ChapterLinks : Type :=
  { prev : option jsstring; next : option jsstring }.

(** The body given to [res.json]. *)
Inductive ScrapeResponse : Type :=
  | Success (count : nat) (summary : jsstring)
      (prevChapter nextChapter : option jsstring) (currentUrl : jsstring)
  | Failure (error : jsstring).

(** The handler from [const summary = await summarizeLongText(..)] on,
    with the page already scraped into [paragraphs] and [chapterLinks];
    a rejection lands in the [catch] block. [None]: no response is sent. *)
Definition scrape_respond (url : jsstring) (paragraphs : list jsstring)
    (chapterLinks : ChapterLinks) (ai : Provider) (tr : list Event)
    : option ScrapeResponse * list Event :=
  match summarizeLongText (JsString.join LF paragraphs) ai tr with
  | (Returned summary, tr') =>
      (Some (Success (length paragraphs) summary
               (prev chapterLinks) (next chapterLinks) url), tr')
  | (Threw error, tr') => (Some (Failure (message error)), tr')
  | (Unfinished, tr') => (None, tr')
  end.

(** ** Vocabulary of the statements *)

(** The calls the loop issues when no call fails, in order. *)
Definition chunk_requests (chunks : list jsstring) : list GenerateContentParameters :=
  imap chunk_request chunks.

(** The calls [reqs] issued one after the other after the calls [hist],
    each with the way the provider settles it. *)
Fixpoint exchanges (ai : Provider) (hist reqs : list GenerateContentParameters)
    : list (GenerateContentParameters * Settled) :=
  match reqs with
  | [] => []
  | req :: reqs' => (req, ai hist req) :: exchanges ai (hist ++ [req]) reqs'
  end.

(** What [resp.text.trim()] throws, if it does, after a call settled. *)
Definition failure (outcome : Settled) : option JsError :=
  match outcome with
  | Rejected reason => Some reason
  | Fulfilled resp =>
      match text resp with Some _ => None | None => Some trim_of_undefined end
  end.

(** The raw text of the model's response, when there is one. *)
Definition raw_text (outcome : Settled) : option jsstring :=
  match outcome with
  | Rejected _ => None
  | Fulfilled resp => text resp
  end.

(** The events of a sequence of calls made one at a time. *)
Definition events_of (xs : list (GenerateContentParameters * Settled)) : list Event :=
  xs ≫= (fun x => [Call x.1; Settle x.2]).

(** The [i]-th call of the run is [req] and it settled as [outcome]. *)
Definition exchange_at (tr : list Event) (i : nat)
    (req : GenerateContentParameters) (outcome : Settled) : Prop :=
  tr !! (2 * i)%nat = Some (Call req) /\ tr !! (2 * i + 1)%nat = Some (Settle outcome).

(** What the caller of the last call gets: [finalResp.text.trim()]. *)
Definition completion_of (outcome : Settled) : Completion jsstring :=
  match outcome with
  | Rejected reason => Threw reason
  | Fulfilled resp =>
      match text resp with
      | Some t => Returned (JsString.trim t)
      | None => Threw trim_of_undefined
      end
  end.

(** The trimmed texts of the calls that brought a text. *)
Definition summaries_of (xs : list (GenerateContentParameters * Settled)) : list jsstring :=
  omap (fun x => JsString.trim <$> raw_text x.2) xs.

(** Every call of the trace settles before the next one is issued. *)
Fixpoint one_at_a_time (tr : list Event) : bool :=
  match tr with
  | [] => true
  | Call _ :: Settle _ :: tr' => one_at_a_time tr'
  | _ => false
  end.

(** ** Stub providers and inputs of the examples *)

(** A provider that answers every call with the same text. *)
Definition canned (reply : jsstring) : Provider :=
  fun _ _ => Fulfilled {| text := Some reply |}.

(** A provider that rejects the call made after [k] earlier ones. *)
Definition failing_at (k : nat) (e : JsError) (reply : jsstring) : Provider :=
  fun hist _ =>
    if (length hist =? k)%nat then Rejected e
    else Fulfilled {| text := Some reply |}.

(** A provider that answers each call with the number of calls made
    before it: the call for chunk [i] gets the text [i]. *)
Definition numbering : Provider :=
  fun hist _ =>
    Fulfilled {| text := Some (JsString.of_number (N.of_nat (length hist))) |}.

Definition outage : JsError :=
  {| name := JsString.lit "ApiError";
     message := JsString.lit "503 Service Unavailable" |}.

(** A text of [n] letters [a]. *)
Definition letters (n : N) : jsstring := repeat 97%N (N.to_nat n).

(** ** The page and the whole [/scrape] handler *)

(** [(els) => els.map((e) => e.innerText.trim()).filter((t) => t.length > 0)],
    the callback of the first [page.$$eval]; an element is given by its
    [innerText]. *)
Definition paragraphs_of (els : list jsstring) : list jsstring :=
  filter (fun t => 0 < JsString.len t) (map JsString.trim els).

Module Anchor.
(** An [a] element, as far as the second callback reads it. *)
Record t : Type := { id : jsstring; href : jsstring }.
End Anchor.

(** The body of [links.forEach((l) => { .. })] on [prev] and [next];
    [None] is [null]. *)
Definition chapterLinks_step (acc : ChapterLinks) (l : Anchor.t) : ChapterLinks :=
  let acc' :=
    if bool_decide (Anchor.id l = JsString.lit "prev_chap")
    then {| prev := Some (Anchor.href l); next := next acc |} else acc in
  if bool_decide (Anchor.id l = JsString.lit "next_chap")
  then {| prev := prev acc'; next := Some (Anchor.href l) |} else acc'.

(** The callback of the second [page.$$eval]. *)
Definition chapterLinks_of (links : list Anchor.t) : ChapterLinks :=
  fold_left chapterLinks_step links {| prev := None; next := None |}.

(** What the browser does for one URL, from [puppeteer.launch] to the
    first [browser.close()]: the launch rejects and [browser] stays
    unset; or a later step rejects ([newPage], [setExtraHTTPHeaders],
    [goto], [waitForSelector], a [$$eval]); or both selections are
    evaluated, on the elements [els] and [links], and [closing] tells
    whether [browser.close()] then rejects. *)
Inductive Scraping : Type :=
  | LaunchRejects (e : JsError)
  | PageRejects (e : JsError)
  | Evaluated (els : list jsstring) (links : list Anchor.t) (closing : option JsError).

(** What one request leaves behind: the body sent with [res.json] if any,
    whether a browser was launched, how many times [browser.close()] was
    called, and the calls to the provider. *)
Record Handling : Type :=
  { response : option ScrapeResponse;
    launched : bool;
    closes : nat;
    provider_trace : list Event }.

Definition url_missing : jsstring :=
  JsString.lit "URL missing. Use /scrape?url=CHAPTER_URL".

(** [app.get('/scrape', async (req, res) => { .. })]; [url] is
    [req.query.url], [None] when the parameter is absent. A rejection in
    the [try] block lands in [catch], which closes the browser if there is
    one and sends the message of the error. *)
Definition scrape (url : option jsstring) (web : jsstring -> Scraping)
    (ai : Provider) : Handling :=
  let missing :=
    {| response := Some (Failure url_missing);
       launched := false; closes := 0; provider_trace := [] |} in
  match url with
  | None => missing
  | Some u =>
      if bool_decide (u = []) then missing
      else
        match web u with
        | LaunchRejects e =>
            {| response := Some (Failure (message e));
               launched := false; closes := 0; provider_trace := [] |}
        | PageRejects e =>
            {| response := Some (Failure (message e));
               launched := true; closes := 1; provider_trace := [] |}
        | Evaluated els links (Some e) =>
            {| response := Some (Failure (message e));
               launched := true; closes := 2; provider_trace := [] |}
        | Evaluated els links None =>
            let (sent, tr) :=
              scrape_respond u (paragraphs_of els) (chapterLinks_of links) ai [] in
            {| response := sent;
               launched := true;
               closes := match sent with Some (Failure _) => 2 | _ => 1 end;
               provider_trace := tr |}
        end
  end.

(** A code unit that [trim] does not strip. *)
Definition visible (u : N) : Prop := JsString.is_white_space u = false.

#[global] Instance visible_dec u : Decision (visible u) :=
  decide (JsString.is_white_space u = false).

(** The body sent says [success: true]. *)
Definition succeeded (r : ScrapeResponse) : bool :=
  match r with Success _ _ _ _ _ => true | Failure _ => false end.

(** A page of the examples: three paragraphs, one of them blank, and the
    two navigation links among others. *)
Definition sample_els : list jsstring :=
  [JsString.lit "  One. "; JsString.lit "   "; JsString.lit "Two."].

Definition sample_links : list Anchor.t :=
  [ {| Anchor.id := JsString.lit "prev_chap"; Anchor.href := JsString.lit "/c1" |};
    {| Anchor.id := JsString.lit "chr-nav"; Anchor.href := JsString.lit "/toc" |};
    {| Anchor.id := JsString.lit "next_chap"; Anchor.href := JsString.lit "/c3" |} ].

Definition sample_web : jsstring -> Scraping :=
  fun _ => Evaluated sample_els sample_links None.

(** * Properties *)

(** ** Arithmetic of [ceil_div] *)

Lemma ceil_div_0 b : 0 < b -> ceil_div 0 b = 0.
Proof. intros Hb. unfold ceil_div. apply Z.div_small. lia. Qed.

Lemma ceil_div_pos a b : 0 < b -> 0 < a -> ceil_div a b = (a - 1) / b + 1.
Proof.
  intros Hb Ha. unfold ceil_div.
  replace (a + b - 1) with (a - 1 + 1 * b) by lia.
  rewrite Z.div_add by lia. reflexivity.
Qed.

Lemma ceil_div_step a b :
  0 < b -> 0 < a -> ceil_div a b = 1 + ceil_div (Z.max (a - b) 0) b.
Proof.
  intros Hb Ha. rewrite (ceil_div_pos a b) by lia.
  destruct (Z.le_gt_cases a b) as [Hle | Hgt].
  - rewrite Z.max_r by lia. rewrite ceil_div_0 by lia.
    rewrite Z.div_small by lia. reflexivity.
  - rewrite Z.max_l by lia. unfold ceil_div.
    replace (a - b + b - 1) with (a - 1) by lia. lia.
Qed.

Lemma ceil_div_least a b :
  0 < b -> 0 <= a -> b * (ceil_div a b - 1) < a <= b * ceil_div a b.
Proof.
  intros Hb Ha. unfold ceil_div.
  pose proof (Z.mul_div_le (a + b - 1) b Hb).
  pose proof (Z.mul_succ_div_gt (a + b - 1) b Hb).
  lia.
Qed.

Lemma ceil_div_nonneg a b : 0 < b -> 0 <= a -> 0 <= ceil_div a b.
Proof. intros Hb Ha. unfold ceil_div. apply Z.div_pos; lia. Qed.

(** ** The window [slice] cuts in [chunkText] *)

Lemma slice_window (s : jsstring) i cs :
  0 <= i -> 0 < cs ->
  JsString.slice s i (i + cs) = take (Z.to_nat cs) (drop (Z.to_nat i) s).
Proof.
  intros Hi Hcs. unfold JsString.slice, JsString.len.
  destruct (Z.ltb_spec i 0); [lia|].
  destruct (Z.ltb_spec (i + cs) 0); [lia|].
  destruct (Z.le_gt_cases i (Z.of_nat (length s))) as [Hin | Hout].
  - rewrite (Z.min_l i) by lia.
    destruct (Z.le_gt_cases (i + cs) (Z.of_nat (length s))).
    + rewrite Z.min_l by lia. f_equal. lia.
    + rewrite Z.min_r by lia.
      rewrite !take_ge; [reflexivity | rewrite length_drop; lia ..].
  - rewrite !drop_ge by lia. by rewrite !take_nil.
Qed.

Lemma chunkText_loop_next budget (s : jsstring) cs i acc :
  i < JsString.len s ->
  chunkText_loop (S budget) s cs i acc
  = chunkText_loop budget s cs (i + cs) (acc ++ [JsString.slice s i (i + cs)]).
Proof. intros Hi. simpl. destruct (Z.ltb_spec i (JsString.len s)); [reflexivity | lia]. Qed.

Lemma chunkText_loop_exit budget (s : jsstring) cs i acc :
  JsString.len s <= i -> chunkText_loop budget s cs i acc = Some acc.
Proof.
  intros Hi. destruct budget; simpl;
    destruct (Z.ltb_spec i (JsString.len s)); (reflexivity || lia).
Qed.

(** What the loop has pushed when it ends, from any index [i] on a window
    boundary or past the end. *)
Lemma chunkText_loop_spec budget : forall (s : jsstring) cs i acc,
  0 < cs -> 0 <= i ->
  ceil_div (Z.max (JsString.len s - i) 0) cs <= Z.of_nat budget ->
  exists rest,
    chunkText_loop budget s cs i acc = Some (acc ++ rest)
    /\ concat rest = drop (Z.to_nat i) s
    /\ Z.of_nat (length rest) = ceil_div (Z.max (JsString.len s - i) 0) cs
    /\ (i < JsString.len s ->
        exists front last,
          rest = front ++ [last]
          /\ Forall (fun c => JsString.len c = cs) front
          /\ JsString.len last
             = if (JsString.len s - i) mod cs =? 0 then cs
               else (JsString.len s - i) mod cs).
Proof.
  induction budget as [|budget IH]; intros s cs i acc Hcs Hi Hb.
  - assert (JsString.len s <= i) as Hend.
    { destruct (Z.le_gt_cases (JsString.len s) i) as [|Hlt]; [done|].
      rewrite ceil_div_step in Hb by lia.
      pose proof (ceil_div_nonneg (Z.max (Z.max (JsString.len s - i) 0 - cs) 0) cs).
      lia. }
    exists []. rewrite chunkText_loop_exit by done.
    rewrite app_nil_r, Z.max_r, ceil_div_0 by lia.
    rewrite drop_ge by (unfold JsString.len in Hend; lia).
    repeat split; lia.
  - destruct (Z.le_gt_cases (JsString.len s) i) as [Hend | Hlt].
    + exists []. rewrite chunkText_loop_exit by done.
      rewrite app_nil_r, Z.max_r, ceil_div_0 by lia.
      rewrite drop_ge by (unfold JsString.len in Hend; lia).
      repeat split; lia.
    + rewrite chunkText_loop_next by done.
      rewrite slice_window by lia.
      set (c := take (Z.to_nat cs) (drop (Z.to_nat i) s)).
      rewrite (ceil_div_step (Z.max _ _)) in Hb |- * by lia.
      rewrite (Z.max_l (JsString.len s - i) 0) in Hb |- * by lia.
      replace (JsString.len s - i - cs) with (JsString.len s - (i + cs)) in Hb |- * by lia.
      destruct (IH s cs (i + cs) (acc ++ [c])) as (rest & Hrun & Hcat & Hlen & Hsizes);
        [lia .. |].
      exists (c :: rest). split; [| split; [| split]].
      * etrans; [exact Hrun|]. by rewrite <- app_assoc.
      * simpl. rewrite Hcat. subst c.
        replace (Z.to_nat (i + cs)) with (Z.to_nat i + Z.to_nat cs)%nat by lia.
        rewrite <- drop_drop. apply take_drop.
      * simpl length. lia.
      * intros _. unfold JsString.len in *.
        assert (length c = Z.to_nat cs `min` (length s - Z.to_nat i))%nat as Hc
          by (subst c; rewrite length_take, length_drop; reflexivity).
        destruct (Z.le_gt_cases (Z.of_nat (length s)) (i + cs)) as [Hlast | Hmore].
        -- assert (rest = []) as ->.
           { apply length_zero_iff_nil. rewrite Z.max_r, ceil_div_0 in Hlen; lia. }
           exists [], c. split; [reflexivity|]. split; [constructor|].
           destruct (Z.eq_dec (Z.of_nat (length s) - i) cs) as [Heq | Hne].
           ++ rewrite Heq, Z_mod_same_full. simpl. lia.
           ++ rewrite Z.mod_small by lia.
              destruct (Z.eqb_spec (Z.of_nat (length s) - i) 0); lia.
        -- destruct Hsizes as (front & last & -> & Hfront & Hlast); [lia|].
           exists (c :: front), last. split; [reflexivity|].
           split; [constructor; [lia | done]|].
           rewrite Hlast.
           replace (Z.of_nat (length s) - i) with (Z.of_nat (length s) - (i + cs) + 1 * cs) by lia.
           rewrite Z.mod_add by lia. reflexivity.
Qed.

Lemma chunkText_loop_more budget : forall budget' (s : jsstring) cs i acc chunks,
  chunkText_loop budget s cs i acc = Some chunks ->
  (budget <= budget')%nat ->
  chunkText_loop budget' s cs i acc = Some chunks.
Proof.
  induction budget as [|budget IH]; intros budget' s cs i acc chunks Hrun Hle.
  - simpl in Hrun. destruct (Z.ltb_spec i (JsString.len s)); [done|].
    rewrite chunkText_loop_exit by done. done.
  - destruct (Z.le_gt_cases (JsString.len s) i) as [Hend | Hlt].
    + rewrite chunkText_loop_exit in Hrun |- * by done. done.
    + destruct budget' as [|budget']; [lia|].
      rewrite chunkText_loop_next in Hrun |- * by done.
      apply IH; [done | lia].
Qed.

(** With a step that is not positive the index never passes the end. *)
Lemma chunkText_loop_stuck budget : forall (s : jsstring) cs i acc,
  cs <= 0 -> i < JsString.len s -> chunkText_loop budget s cs i acc = None.
Proof.
  induction budget as [|budget IH]; intros s cs i acc Hcs Hi.
  - simpl. destruct (Z.ltb_spec i (JsString.len s)); [reflexivity | lia].
  - rewrite chunkText_loop_next by done. apply IH; lia.
Qed.

Lemma ceil_div_le_len a b : 0 < b -> 0 <= a -> ceil_div a b <= a.
Proof.
  intros Hb Ha. destruct (Z.eq_dec a 0) as [-> | Hne].
  - rewrite ceil_div_0; lia.
  - rewrite ceil_div_pos by lia.
    assert ((a - 1) / b <= a - 1); [|lia].
    apply Z.div_le_upper_bound; nia.
Qed.

(** The budget [chunkText] gives its loop is enough whenever any is. *)
Lemma chunkText_budget_enough (s : jsstring) cs budget chunks :
  chunkText_loop budget s cs 0 [] = Some chunks -> chunkText s cs = Some chunks.
Proof.
  intros Hrun. unfold chunkText.
  destruct (Z.lt_ge_cases 0 cs) as [Hcs | Hcs].
  - destruct (chunkText_loop_spec (length s) s cs 0 [] Hcs) as (rest & Hrest & _);
      [lia | |].
    { rewrite Z.sub_0_r, Z.max_l by (unfold JsString.len; lia).
      apply ceil_div_le_len; unfold JsString.len; lia. }
    rewrite Hrest.
    destruct (Nat.le_ge_cases budget (length s)).
    + rewrite (chunkText_loop_more _ _ _ _ _ _ _ Hrun) in Hrest by done. done.
    + rewrite (chunkText_loop_more _ _ _ _ _ _ _ Hrest) in Hrun by done. done.
  - destruct s as [|c s].
    + rewrite chunkText_loop_exit in Hrun |- * by (unfold JsString.len; simpl; lia). done.
    + rewrite chunkText_loop_stuck in Hrun; [done | done | unfold JsString.len; simpl; lia].
Qed.

Lemma chunkText_spec (s : jsstring) cs :
  0 < cs ->
  exists chunks,
    chunkText s cs = Some chunks
    /\ (forall budget, ceil_div (JsString.len s) cs <= Z.of_nat budget ->
        chunkText_loop budget s cs 0 [] = Some chunks)
    /\ concat chunks = s
    /\ Z.of_nat (length chunks) = ceil_div (JsString.len s) cs
    /\ (s <> [] ->
        exists front last,
          chunks = front ++ [last]
          /\ Forall (fun c => JsString.len c = cs) front
          /\ JsString.len last
             = if JsString.len s mod cs =? 0 then cs else JsString.len s mod cs).
Proof.
  intros Hcs.
  assert (0 <= JsString.len s) as Hlen by (unfold JsString.len; lia).
  assert (Z.max (JsString.len s - 0) 0 = JsString.len s) as Hmax by lia.
  destruct (chunkText_loop_spec (length s) s cs 0 [] Hcs) as (chunks & Hrun & Hcat & Hn & Hsz);
    [lia | rewrite Hmax; apply ceil_div_le_len; lia |].
  rewrite app_nil_l in Hrun. change (chunkText s cs = Some chunks) in Hrun.
  rewrite Hmax in Hn. rewrite Z.sub_0_r in Hsz. change (Z.to_nat 0) with 0%nat in Hcat. rewrite drop_0 in Hcat.
  exists chunks. split; [exact Hrun|]. split; [| split; [done | split; [done|]]].
  - intros budget Hb.
    destruct (chunkText_loop_spec budget s cs 0 [] Hcs) as (chunks' & Hrun' & _);
      [lia | rewrite Hmax; done |].
    rewrite app_nil_l in Hrun'.
    rewrite (chunkText_budget_enough _ _ _ _ Hrun') in Hrun. congruence.
  - intros Hne. apply Hsz. destruct s; [done | unfold JsString.len; simpl; lia].
Qed.

(** ** Traces *)

Lemma requests_app tr tr' : requests (tr ++ tr') = requests tr ++ requests tr'.
Proof. unfold requests. apply omap_app. Qed.

Lemma events_of_app xs ys : events_of (xs ++ ys) = events_of xs ++ events_of ys.
Proof. unfold events_of. apply bind_app. Qed.

Lemma events_of_cons x xs :
  events_of (x :: xs) = Call x.1 :: Settle x.2 :: events_of xs.
Proof. reflexivity. Qed.

Lemma requests_events_of xs : requests (events_of xs) = xs.*1.
Proof.
  induction xs as [|x xs IH]; [reflexivity|].
  rewrite events_of_cons. simpl. f_equal. exact IH.
Qed.

Lemma one_at_a_time_events_of xs : one_at_a_time (events_of xs) = true.
Proof. induction xs as [|x xs IH]; [reflexivity | exact IH]. Qed.

Lemma exchange_at_events_of xs i x :
  xs !! i = Some x -> exchange_at (events_of xs) i x.1 x.2.
Proof.
  revert i. induction xs as [|y xs IH]; intros i Hx; [done|].
  destruct i as [|i]; simpl in Hx.
  - injection Hx as ->. split; reflexivity.
  - destruct (IH i Hx) as [Hc Hs]. unfold exchange_at. rewrite events_of_cons. split.
    + replace (2 * S i)%nat with (S (S (2 * i))) by lia. exact Hc.
    + replace (2 * S i + 1)%nat with (S (S (2 * i + 1))) by lia. exact Hs.
Qed.

Lemma exchanges_fst ai : forall hist reqs, (exchanges ai hist reqs).*1 = reqs.
Proof.
  intros hist reqs. revert hist.
  induction reqs as [|req reqs IH]; intros hist; [reflexivity|].
  simpl. f_equal. apply IH.
Qed.

Lemma length_exchanges ai hist reqs : length (exchanges ai hist reqs) = length reqs.
Proof. rewrite <- (exchanges_fst ai hist reqs) at 2. by rewrite length_fmap. Qed.

(** Either no call of a sequence fails, or there is a first one that does. *)
Lemma first_failure (xs : list (GenerateContentParameters * Settled)) :
  Forall (fun x => failure x.2 = None) xs
  \/ exists xs1 x xs2 e,
       xs = xs1 ++ x :: xs2
       /\ Forall (fun x => failure x.2 = None) xs1 /\ failure x.2 = Some e.
Proof.
  induction xs as [|x xs IH]; [by left|].
  destruct (failure x.2) as [e|] eqn:Hx.
  - right. exists [], x, xs, e. by repeat split.
  - destruct IH as [Hok | (xs1 & y & xs2 & e & -> & Hok & Hy)].
    + left. by constructor.
    + right. exists (x :: xs1), y, xs2, e. repeat split; [by constructor | done].
Qed.

Lemma length_summaries_of xs :
  Forall (fun x => failure x.2 = None) xs -> length (summaries_of xs) = length xs.
Proof.
  induction 1 as [|[req o] xs Hx _ IH]; [reflexivity|].
  unfold summaries_of in *. simpl in *.
  destruct o as [[[t|]]|]; simplify_eq/=. by rewrite IH.
Qed.

Lemma summaries_of_lookup xs i x :
  Forall (fun x => failure x.2 = None) xs ->
  xs !! i = Some x ->
  exists raw, raw_text x.2 = Some raw /\ summaries_of xs !! i = Some (JsString.trim raw).
Proof.
  intros Hok. revert i. induction Hok as [|[req o] xs Hx _ IH]; intros i Hi; [done|].
  unfold summaries_of in *. simpl in Hx.
  destruct o as [[[t|]]|]; simplify_eq/=.
  destruct i as [|i]; simplify_eq/=; [by exists t|]. by apply IH.
Qed.

(** ** One call and the reading of its text *)

Lemma call_then_trim {A} req (k : jsstring -> Async A) ai tr :
  (resp ← generateContent req; summary ← text_trim resp; k summary) ai tr
  = let outcome := ai (requests tr) req in
    let tr' := tr ++ [Call req; Settle outcome] in
    match completion_of outcome with
    | Returned summary => k summary ai tr'
    | Threw e => (Threw e, tr')
    | Unfinished => (Unfinished, tr')
    end.
Proof.
  unfold mbind, Async_bind, generateContent, text_trim, completion_of; simpl.
  destruct (ai (requests tr) req) as [[[t|]]|]; reflexivity.
Qed.

Lemma completion_of_ok outcome :
  failure outcome = None ->
  exists raw, raw_text outcome = Some raw
              /\ completion_of outcome = Returned (JsString.trim raw).
Proof. destruct outcome as [[[t|]]|]; intros; simplify_eq/=. by exists t. Qed.

Lemma completion_of_failure outcome e :
  failure outcome = Some e -> completion_of outcome = Threw e.
Proof. destruct outcome as [[[t|]]|]; intros; by simplify_eq/=. Qed.

(** ** The loop of [summarizeLongText] *)

Lemma chunk_requests_lookup chunks i :
  chunk_requests chunks !! i = chunk_request i <$> chunks !! i.
Proof. unfold chunk_requests. apply list_lookup_imap. Qed.

Lemma length_chunk_requests chunks : length (chunk_requests chunks) = length chunks.
Proof. unfold chunk_requests. apply length_imap. Qed.

Lemma summarize_loop_exit budget chunks i sums ai tr :
  (length chunks <= i)%nat ->
  summarize_loop budget chunks i sums ai tr = (Returned sums, tr).
Proof.
  intros Hi. destruct budget; simpl; rewrite bool_decide_eq_false_2 by lia; reflexivity.
Qed.

Lemma summarize_loop_next budget chunks i c sums ai tr :
  chunks !! i = Some c ->
  summarize_loop (S budget) chunks i sums ai tr
  = let outcome := ai (requests tr) (chunk_request i c) in
    let tr' := tr ++ [Call (chunk_request i c); Settle outcome] in
    match completion_of outcome with
    | Returned summary => summarize_loop budget chunks (S i) (sums ++ [summary]) ai tr'
    | Threw e => (Threw e, tr')
    | Unfinished => (Unfinished, tr')
    end.
Proof.
  intros Hc. pose proof (lookup_lt_Some _ _ _ Hc) as Hlt.
  cbn [summarize_loop]. rewrite bool_decide_eq_true_2 by done.
  rewrite call_then_trim. unfold at_index. rewrite Hc. simpl.
  replace (i + 1)%nat with (S i) by lia. reflexivity.
Qed.

(** The run of the loop from index [i]: it goes through the calls for the
    chunks from [i] on, in order, up to the first one that fails. *)
Lemma summarize_loop_run ai chunks budget : forall i sums tr,
  (length chunks - i <= budget)%nat ->
  let xs := exchanges ai (requests tr) (drop i (chunk_requests chunks)) in
  (Forall (fun x => failure x.2 = None) xs ->
   summarize_loop budget chunks i sums ai tr
   = (Returned (sums ++ summaries_of xs), tr ++ events_of xs))
  /\ (forall xs1 x xs2 e,
        xs = xs1 ++ x :: xs2 ->
        Forall (fun x => failure x.2 = None) xs1 ->
        failure x.2 = Some e ->
        summarize_loop budget chunks i sums ai tr
        = (Threw e, tr ++ events_of (xs1 ++ [x]))).
Proof.
  induction budget as [|budget IH]; intros i sums tr Hb xs.
  - subst xs. rewrite drop_ge by (rewrite length_chunk_requests; lia).
    rewrite summarize_loop_exit by lia. simpl. split.
    + intros _. by rewrite !app_nil_r.
    + intros [|] ????; done.
  - destruct (chunks !! i) as [c|] eqn:Hc.
    + assert (xs = (chunk_request i c, ai (requests tr) (chunk_request i c))
                   :: exchanges ai (requests (tr ++ [Call (chunk_request i c);
                                                     Settle (ai (requests tr) (chunk_request i c))]))
                        (drop (S i) (chunk_requests chunks))) as ->.
      { subst xs. rewrite (drop_S _ (chunk_request i c) i)
          by (rewrite chunk_requests_lookup, Hc; reflexivity).
        simpl. by rewrite requests_app. }
      pose proof (lookup_lt_Some _ _ _ Hc) as Hlt.
      rewrite (summarize_loop_next _ _ _ c) by done. cbv zeta.
      set (o := ai (requests tr) (chunk_request i c)).
      set (tr' := tr ++ [Call (chunk_request i c); Settle o]).
      split.
      * intros Hok. apply Forall_cons in Hok as [Ho Hok]. simpl in Ho.
        destruct (completion_of_ok _ Ho) as (raw & Hraw & ->).
        destruct (IH (S i) (sums ++ [JsString.trim raw]) tr') as [IHok _]; [lia|].
        rewrite (IHok Hok).
        unfold summaries_of at 2. simpl. fold o. rewrite Hraw. simpl.
        subst tr'. rewrite <- !app_assoc. reflexivity.
      * intros [|x1 xs1] x xs2 e Heq Hok Hx; simplify_eq/=.
        -- by rewrite (completion_of_failure _ _ Hx).
        -- apply Forall_cons in Hok as [Ho Hok]. simpl in Ho.
           destruct (completion_of_ok _ Ho) as (raw & Hraw & ->).
           destruct (IH (S i) (sums ++ [JsString.trim raw]) tr') as [_ IHfail]; [lia|].
           rewrite (IHfail xs1 x xs2 e) by done.
           subst tr'. rewrite <- !app_assoc. reflexivity.
    + apply lookup_ge_None in Hc. subst xs.
      rewrite drop_ge by (rewrite length_chunk_requests; lia).
      rewrite summarize_loop_exit by lia. simpl. split.
      * intros _. by rewrite !app_nil_r.
      * intros [|] ????; done.
Qed.

Lemma exchanges_lookup_Some ai : forall reqs hist i req,
  reqs !! i = Some req ->
  exchanges ai hist reqs !! i = Some (req, ai (hist ++ take i reqs) req).
Proof.
  induction reqs as [|r reqs IH]; intros hist i req Hreq; [done|].
  destruct i as [|i]; simpl in *.
  - injection Hreq as ->. by rewrite app_nil_r.
  - rewrite (IH _ _ _ Hreq), <- app_assoc. reflexivity.
Qed.

Lemma last_call ai req tr :
  (finalResp ← generateContent req; text_trim finalResp) ai tr
  = (completion_of (ai (requests tr) req),
     tr ++ [Call req; Settle (ai (requests tr) req)]).
Proof.
  unfold mbind, Async_bind, generateContent, text_trim, completion_of; simpl.
  destruct (ai (requests tr) req) as [[[t|]]|]; reflexivity.
Qed.

Lemma Async_bind_run {A B} (m : Async A) (k : A -> Async B) ai tr :
  (m ≫= k) ai tr
  = match m ai tr with
    | (Returned a, tr') => k a ai tr'
    | (Threw e, tr') => (Threw e, tr')
    | (Unfinished, tr') => (Unfinished, tr')
    end.
Proof. reflexivity. Qed.

(** ** The run of [summarizeLongText] *)

(** The pipeline goes through the calls for all chunks and then makes the
    last call; a call that fails ends the run there. *)
Lemma summarizeLongText_run ai fullText :
  exists chunks,
    chunkText fullText default_chunkSize = Some chunks
    /\ let xs := exchanges ai [] (chunk_requests chunks) in
       (Forall (fun x => failure x.2 = None) xs ->
        let last := final_request (summaries_of xs) in
        let outcome := ai (chunk_requests chunks) last in
        summarizeLongText fullText ai []
        = (completion_of outcome, events_of (xs ++ [(last, outcome)])))
       /\ (forall xs1 x xs2 e,
             xs = xs1 ++ x :: xs2 ->
             Forall (fun x => failure x.2 = None) xs1 ->
             failure x.2 = Some e ->
             summarizeLongText fullText ai []
             = (Threw e, events_of (xs1 ++ [x]))).
Proof.
  destruct (chunkText_spec fullText default_chunkSize) as (chunks & Hchunks & _);
    [done|].
  exists chunks. split; [done|]. intros xs.
  destruct (summarize_loop_run ai chunks (length chunks) 0%nat [] []) as [Hok Hfail];
    [lia|].
  rewrite drop_0 in Hok, Hfail. change (requests []) with (@nil GenerateContentParameters) in *.
  fold xs in Hok, Hfail.
  assert (summarizeLongText fullText ai []
          = match summarize_loop (length chunks) chunks 0 [] ai [] with
            | (Returned sums, tr') =>
                (finalResp ← generateContent (final_request sums);
                 text_trim finalResp) ai tr'
            | (Threw e, tr') => (Threw e, tr')
            | (Unfinished, tr') => (Unfinished, tr')
            end) as ->.
  { unfold summarizeLongText. rewrite Async_bind_run. unfold finished.
    rewrite Hchunks. reflexivity. }
  split.
  - intros Hall. cbv zeta. rewrite (Hok Hall). rewrite !app_nil_l.
    rewrite last_call, requests_events_of. subst xs. rewrite exchanges_fst.
    rewrite events_of_app. reflexivity.
  - intros xs1 x xs2 e Heq Hall Hx. rewrite (Hfail xs1 x xs2 e Heq Hall Hx).
    reflexivity.
Qed.

Lemma failing_run_requests (xs xs1 xs2 : list (GenerateContentParameters * Settled)) x :
  xs = xs1 ++ x :: xs2 ->
  requests (events_of (xs1 ++ [x])) = take (S (length xs1)) xs.*1.
Proof.
  intros ->. rewrite requests_events_of.
  assert ((xs1 ++ x :: xs2).*1 = (xs1 ++ [x]).*1 ++ xs2.*1) as ->.
  { rewrite !fmap_app. simpl. by rewrite <- app_assoc. }
  symmetry. apply take_app_length'. rewrite length_fmap, length_app. simpl. lia.
Qed.

(** ** [trim] *)

Lemma trimStart_spec (s : jsstring) :
  exists ws,
    s = ws ++ JsString.trimStart s
    /\ Forall (fun c => JsString.is_white_space c = true) ws
    /\ forall c, head (JsString.trimStart s) = Some c -> JsString.is_white_space c = false.
Proof.
  induction s as [|c s (ws & Hs & Hws & Hhead)].
  - exists []. by repeat split.
  - simpl. destruct (JsString.is_white_space c) eqn:Hc.
    + exists (c :: ws). repeat split; [simpl; congruence | by constructor | done].
    + exists []. repeat split; [by constructor|]. simpl. congruence.
Qed.

Lemma trimEnd_spec (s : jsstring) :
  exists ws,
    s = JsString.trimEnd s ++ ws
    /\ Forall (fun c => JsString.is_white_space c = true) ws
    /\ forall c, last (JsString.trimEnd s) = Some c -> JsString.is_white_space c = false.
Proof.
  destruct (trimStart_spec (reverse s)) as (ws & Hs & Hws & Hhead).
  exists (reverse ws). unfold JsString.trimEnd. repeat split.
  - rewrite <- reverse_app, <- Hs. by rewrite reverse_involutive.
  - by apply Forall_reverse.
  - intros c. rewrite last_reverse. apply Hhead.
Qed.

Lemma trim_spec (raw : jsstring) :
  exists ws1 ws2,
    raw = ws1 ++ JsString.trim raw ++ ws2
    /\ Forall (fun c => JsString.is_white_space c = true) ws1
    /\ Forall (fun c => JsString.is_white_space c = true) ws2
    /\ (forall c, head (JsString.trim raw) = Some c -> JsString.is_white_space c = false)
    /\ (forall c, last (JsString.trim raw) = Some c -> JsString.is_white_space c = false).
Proof.
  destruct (trimStart_spec raw) as (ws1 & Hs & Hws1 & Hhead).
  destruct (trimEnd_spec (JsString.trimStart raw)) as (ws2 & He & Hws2 & Hlast).
  exists ws1, ws2. unfold JsString.trim. repeat split; [congruence | done | done | | done].
  intros c Hc. apply Hhead. rewrite He.
  destruct (JsString.trimEnd (JsString.trimStart raw)); [done | exact Hc].
Qed.

(** ** [join] *)

Lemma join_cons (sep p : jsstring) rest :
  rest <> [] -> JsString.join sep (p :: rest) = p ++ sep ++ JsString.join sep rest.
Proof. destruct rest; [done | reflexivity]. Qed.

Lemma join_occurs (sep : jsstring) parts : forall j b,
  parts !! j = Some b -> exists pre post, JsString.join sep parts = pre ++ b ++ post.
Proof.
  induction parts as [|p rest IH]; intros j b Hb; [done|].
  destruct rest as [|q rest].
  - destruct j; [|done]. injection Hb as ->. exists [], []. by rewrite app_nil_r.
  - rewrite join_cons by done. destruct j as [|j]; simpl in Hb.
    + injection Hb as ->. by exists [], (sep ++ JsString.join sep (q :: rest)).
    + destruct (IH j b Hb) as (pre & post & ->).
      exists (p ++ sep ++ pre), post. by rewrite <- !app_assoc.
Qed.

(** In a joined string an earlier part, then a separator, come before a
    later part. *)
Lemma join_precedes (sep : jsstring) parts : forall i j a b,
  (i < j)%nat -> parts !! i = Some a -> parts !! j = Some b ->
  exists pre mid post, JsString.join sep parts = pre ++ a ++ sep ++ mid ++ b ++ post.
Proof.
  induction parts as [|p rest IH]; intros i j a b Hij Ha Hb; [done|].
  destruct j as [|j]; [lia|]. simpl in Hb.
  rewrite join_cons by (intros ->; done).
  destruct i as [|i]; simpl in Ha.
  - injection Ha as ->. destruct (join_occurs sep rest j b Hb) as (mid & post & ->).
    by exists [], mid, post.
  - destruct (IH i j a b) as (pre & mid & post & ->); [lia | done | done |].
    exists (p ++ sep ++ pre), mid, post. by rewrite <- !app_assoc.
Qed.

(** ** Every run, by cases *)

(** A run of the pipeline either makes every call, the last one included,
    or ends at the first call for a chunk that fails. *)
Lemma run_cases ai fullText chunks c tr :
  chunkText fullText default_chunkSize = Some chunks ->
  summarizeLongText fullText ai [] = (c, tr) ->
  let xs := exchanges ai [] (chunk_requests chunks) in
  (Forall (fun x => failure x.2 = None) xs
   /\ exists outcome,
        c = completion_of outcome
        /\ tr = events_of (xs ++ [(final_request (summaries_of xs), outcome)]))
  \/ (exists xs1 x xs2 e,
        xs = xs1 ++ x :: xs2
        /\ Forall (fun x => failure x.2 = None) xs1
        /\ failure x.2 = Some e
        /\ c = Threw e /\ tr = events_of (xs1 ++ [x])).
Proof.
  intros Hchunks Hrun xs.
  destruct (summarizeLongText_run ai fullText) as (chunks' & Hchunks' & Hok & Hfail).
  assert (chunks' = chunks) as -> by congruence. fold xs in Hok, Hfail.
  destruct (first_failure xs) as [Hall | (xs1 & x & xs2 & e & Heq & Hall & Hx)].
  - left. split; [done|]. rewrite (Hok Hall) in Hrun. injection Hrun as <- <-. eauto.
  - right. rewrite (Hfail _ _ _ _ Heq Hall Hx) in Hrun. injection Hrun as <- <-.
    exists xs1, x, xs2, e. done.
Qed.

(** Every run ends, in a [return] or a [throw]: the budgets of the two
    loops are never what stops it. *)
Lemma summarizeLongText_finishes ai fullText :
  exists c tr,
    summarizeLongText fullText ai [] = (c, tr)
    /\ c <> Unfinished /\ one_at_a_time tr = true.
Proof.
  destruct (summarizeLongText_run ai fullText) as (chunks & Hchunks & _).
  destruct (summarizeLongText fullText ai []) as [c tr] eqn:Hrun.
  exists c, tr. split; [done|].
  destruct (run_cases _ _ _ _ _ Hchunks Hrun)
    as [(_ & o & -> & ->) | (xs1 & x & xs2 & e & _ & _ & _ & -> & ->)].
  - split; [|apply one_at_a_time_events_of]. by destruct o as [[[raw|]]|].
  - split; [done | apply one_at_a_time_events_of].
Qed.

(** The calls of a run that come before the last call are the calls for
    the chunks, in order. *)
Lemma run_chunk_calls ai fullText chunks c tr i req :
  chunkText fullText default_chunkSize = Some chunks ->
  summarizeLongText fullText ai [] = (c, tr) ->
  (i < length chunks)%nat ->
  requests tr !! i = Some req ->
  chunk_requests chunks !! i = Some req.
Proof.
  intros Hchunks Hrun Hi Hreq.
  destruct (run_cases _ _ _ _ _ Hchunks Hrun)
    as [(_ & o & _ & ->) | (xs1 & x & xs2 & e & Heq & _ & _ & _ & ->)].
  - rewrite requests_events_of, fmap_app, exchanges_fst in Hreq.
    rewrite lookup_app_l in Hreq by (rewrite length_chunk_requests; done). done.
  - rewrite (failing_run_requests _ _ _ _ Heq), exchanges_fst in Hreq.
    by apply lookup_take_Some in Hreq as [? _].
Qed.

(** In a run whose calls for the chunks all succeed, each chunk has its
    call, and the trimmed text of the response is its summary. *)
Lemma run_summaries ai chunks outcome i chunk :
  let xs := exchanges ai [] (chunk_requests chunks) in
  Forall (fun x => failure x.2 = None) xs ->
  chunks !! i = Some chunk ->
  exists o raw,
    exchange_at (events_of (xs ++ [(final_request (summaries_of xs), outcome)]))
      i (chunk_request i chunk) o
    /\ raw_text o = Some raw
    /\ summaries_of xs !! i = Some (JsString.trim raw).
Proof.
  intros xs Hall Hchunk.
  assert (xs !! i = Some (chunk_request i chunk,
                          ai ([] ++ take i (chunk_requests chunks)) (chunk_request i chunk)))
    as Hx.
  { apply exchanges_lookup_Some. rewrite chunk_requests_lookup, Hchunk. reflexivity. }
  destruct (summaries_of_lookup _ _ _ Hall Hx) as (raw & Hraw & Hsum).
  eexists _, raw. split; [|done].
  eapply (exchange_at_events_of _ i (_, _)). by apply lookup_app_l_Some.
Qed.

Lemma run_last_call ai chunks outcome :
  let xs := exchanges ai [] (chunk_requests chunks) in
  exchange_at (events_of (xs ++ [(final_request (summaries_of xs), outcome)]))
    (length chunks) (final_request (summaries_of xs)) outcome.
Proof.
  intros xs. eapply (exchange_at_events_of _ _ (_, _)).
  rewrite lookup_app_r; subst xs; rewrite length_exchanges, length_chunk_requests; [|done].
  by rewrite Nat.sub_diag.
Qed.

(** The two kinds of call differ in the second code unit of the prompt. *)
Lemma chunk_request_not_final i chunk sums : chunk_request i chunk <> final_request sums.
Proof.
  intros Heq. apply (f_equal (fun req => take 2 (contents req))) in Heq.
  vm_compute in Heq. discriminate.
Qed.

Lemma occurs_in_includes (needle s : jsstring) :
  JsString.occurs_in needle s -> JsString.includes s needle = true.
Proof.
  intros (pre & post & ->). induction pre as [|c pre IH].
  - assert (JsString.starts_with needle (needle ++ post) = true) as Hstart.
    { induction needle as [|a needle IHn]; [reflexivity|].
      simpl. by rewrite N.eqb_refl, IHn. }
    simpl. destruct (needle ++ post); simpl; simpl in Hstart; by rewrite Hstart.
  - simpl. rewrite IH. apply orb_true_r.
Qed.

(** * The claims of the specification *)

(** ** The chunker *)

(** C2. Chunking is lossless: for every string and every positive
    [maxSize], [chunkText] returns, and its chunks concatenated in index
    order are the string. *)
Theorem chunkText_lossless (s : jsstring) (maxSize : Z) :
  0 < maxSize ->
  exists chunks, chunkText s maxSize = Some chunks /\ concat chunks = s.
Proof.
  intros Hsize.
  destruct (chunkText_spec s maxSize Hsize) as (chunks & Hrun & _ & Hcat & _).
  by exists chunks.
Qed.

Lemma chunkText_lossless_witness :
  0 < 3
  /\ exists chunks,
       chunkText (JsString.lit "abcdefg") 3 = Some chunks
       /\ concat chunks = JsString.lit "abcdefg".
Proof. split; [lia | apply (chunkText_lossless (JsString.lit "abcdefg") 3); lia]. Defined.

(** C6. Chunk count: a string of length [L] is cut into [ceil (L / maxSize)]
    chunks, the least integer [n] with [L <= maxSize * n]; an empty string
    gives no chunk at all. *)
Theorem chunkText_count (s : jsstring) (maxSize : Z) :
  0 < maxSize ->
  exists chunks,
    chunkText s maxSize = Some chunks
    /\ Z.of_nat (length chunks) = ceil_div (JsString.len s) maxSize
    /\ maxSize * (Z.of_nat (length chunks) - 1) < JsString.len s
       <= maxSize * Z.of_nat (length chunks)
    /\ (JsString.len s = 0 -> chunks = []).
Proof.
  intros Hsize.
  destruct (chunkText_spec s maxSize Hsize) as (chunks & Hrun & _ & _ & Hn & _).
  exists chunks. split; [done|]. split; [done|]. split.
  - rewrite Hn. apply ceil_div_least; [done | unfold JsString.len; lia].
  - intros HL. apply length_zero_iff_nil.
    rewrite HL, ceil_div_0 in Hn by done. lia.
Qed.

Lemma chunkText_count_witness :
  0 < 3
  /\ exists chunks,
       chunkText (JsString.lit "abcdefg") 3 = Some chunks
       /\ Z.of_nat (length chunks) = ceil_div (JsString.len (JsString.lit "abcdefg")) 3
       /\ 3 * (Z.of_nat (length chunks) - 1) < JsString.len (JsString.lit "abcdefg")
          <= 3 * Z.of_nat (length chunks)
       /\ (JsString.len (JsString.lit "abcdefg") = 0 -> chunks = []).
Proof. split; [lia | apply (chunkText_count (JsString.lit "abcdefg") 3); lia]. Defined.

(** C7. Chunk sizes: for a non-empty string and a positive [maxSize],
    every chunk but the last has exactly [maxSize] code units, and the last
    has [L mod maxSize], or [maxSize] when [maxSize] divides [L]. *)
Theorem chunkText_sizes (s : jsstring) (maxSize : Z) :
  0 < JsString.len s -> 0 < maxSize ->
  exists front last,
    chunkText s maxSize = Some (front ++ [last])
    /\ Forall (fun chunk => JsString.len chunk = maxSize) front
    /\ JsString.len last
       = if JsString.len s mod maxSize =? 0 then maxSize
         else JsString.len s mod maxSize.
Proof.
  intros HL Hsize.
  destruct (chunkText_spec s maxSize Hsize) as (chunks & Hrun & _ & _ & _ & Hsz).
  destruct Hsz as (front & last & -> & Hfront & Hlast).
  { intros ->. unfold JsString.len in HL. simpl in HL. lia. }
  by exists front, last.
Qed.

Lemma chunkText_sizes_witness :
  0 < JsString.len (JsString.lit "abcdefg") /\ 0 < 3
  /\ exists front last,
       chunkText (JsString.lit "abcdefg") 3 = Some (front ++ [last])
       /\ Forall (fun chunk => JsString.len chunk = 3) front
       /\ JsString.len last
          = if JsString.len (JsString.lit "abcdefg") mod 3 =? 0 then 3
            else JsString.len (JsString.lit "abcdefg") mod 3.
Proof.
  split; [reflexivity|]. split; [lia|].
  apply (chunkText_sizes (JsString.lit "abcdefg") 3); [reflexivity | lia].
Defined.

(** C10. Termination under the precondition: for a positive [chunkSize]
    the loop of [chunkText] ends, within [ceil (L / chunkSize)] iterations,
    because each iteration moves the index up by [chunkSize]; and the
    precondition is needed, since with a step that is not positive the
    loop never ends on a non-empty string. *)
Theorem chunkText_terminates (s : jsstring) (chunkSize : Z) :
  0 < chunkSize ->
  (exists chunks,
     chunkText s chunkSize = Some chunks
     /\ forall budget,
          ceil_div (JsString.len s) chunkSize <= Z.of_nat budget ->
          chunkText_loop budget s chunkSize 0 [] = Some chunks)
  /\ (forall budget i chunks,
        i < JsString.len s ->
        i < i + chunkSize
        /\ chunkText_loop (S budget) s chunkSize i chunks
           = chunkText_loop budget s chunkSize (i + chunkSize)
               (chunks ++ [JsString.slice s i (i + chunkSize)]))
  /\ (forall step budget,
        step <= 0 -> s <> [] -> chunkText_loop budget s step 0 [] = None).
Proof.
  intros Hsize. split; [| split].
  - destruct (chunkText_spec s chunkSize Hsize) as (chunks & Hrun & Hbudget & _).
    by exists chunks.
  - intros budget i chunks Hi. split; [lia|]. by apply chunkText_loop_next.
  - intros step budget Hstep Hs. apply chunkText_loop_stuck; [done|].
    destruct s; [done | unfold JsString.len; simpl; lia].
Qed.

Lemma chunkText_terminates_witness :
  0 < 3
  /\ (exists chunks,
        chunkText (JsString.lit "abcdefg") 3 = Some chunks
        /\ forall budget,
             ceil_div (JsString.len (JsString.lit "abcdefg")) 3 <= Z.of_nat budget ->
             chunkText_loop budget (JsString.lit "abcdefg") 3 0 [] = Some chunks)
  /\ (forall budget i chunks,
        i < JsString.len (JsString.lit "abcdefg") ->
        i < i + 3
        /\ chunkText_loop (S budget) (JsString.lit "abcdefg") 3 i chunks
           = chunkText_loop budget (JsString.lit "abcdefg") 3 (i + 3)
               (chunks ++ [JsString.slice (JsString.lit "abcdefg") i (i + 3)]))
  /\ (forall step budget,
        step <= 0 -> JsString.lit "abcdefg" <> [] ->
        chunkText_loop budget (JsString.lit "abcdefg") step 0 [] = None).
Proof. split; [lia | apply (chunkText_terminates (JsString.lit "abcdefg") 3); lia]. Defined.

(** ** The pipeline *)

(** C8. Call count and call order: a run that returns has made one call per
    chunk, in the order of the chunks, then one last call for the
    synthesis, [n + 1] calls in all, each settled before the next was
    issued. *)
Theorem call_count_and_order (ai : Provider) (fullText final : jsstring)
    (tr : list Event) :
  summarizeLongText fullText ai [] = (Returned final, tr) ->
  exists chunks chunkSummaries,
    chunkText fullText default_chunkSize = Some chunks
    /\ requests tr = chunk_requests chunks ++ [final_request chunkSummaries]
    /\ (forall i chunk,
          chunks !! i = Some chunk ->
          requests tr !! i = Some (chunk_request i chunk))
    /\ requests tr !! length chunks = Some (final_request chunkSummaries)
    /\ length (requests tr) = (length chunks + 1)%nat
    /\ one_at_a_time tr = true.
Proof.
  intros Hrun.
  destruct (summarizeLongText_run ai fullText) as (chunks & Hchunks & _).
  destruct (run_cases _ _ _ _ _ Hchunks Hrun)
    as [(_ & o & _ & ->) | (? & ? & ? & ? & _ & _ & _ & [=] & _)].
  set (xs := exchanges ai [] (chunk_requests chunks)).
  exists chunks, (summaries_of xs). split; [done|].
  assert (requests (events_of (xs ++ [(final_request (summaries_of xs), o)]))
          = chunk_requests chunks ++ [final_request (summaries_of xs)]) as Hreqs.
  { rewrite requests_events_of, fmap_app. subst xs. by rewrite exchanges_fst. }
  rewrite Hreqs. repeat split.
  - intros i chunk Hchunk. apply lookup_app_l_Some.
    rewrite chunk_requests_lookup, Hchunk. reflexivity.
  - rewrite lookup_app_r; rewrite length_chunk_requests; [|done].
    by rewrite Nat.sub_diag.
  - rewrite length_app, length_chunk_requests. reflexivity.
  - apply one_at_a_time_events_of.
Qed.

Lemma call_count_and_order_witness :
  let run := summarizeLongText (JsString.lit "abc") (canned (JsString.lit " ok ")) [] in
  run = (Returned (JsString.lit "ok"), run.2)
  /\ exists chunks chunkSummaries,
       chunkText (JsString.lit "abc") default_chunkSize = Some chunks
       /\ requests run.2 = chunk_requests chunks ++ [final_request chunkSummaries]
       /\ (forall i chunk,
             chunks !! i = Some chunk ->
             requests run.2 !! i = Some (chunk_request i chunk))
       /\ requests run.2 !! length chunks = Some (final_request chunkSummaries)
       /\ length (requests run.2) = (length chunks + 1)%nat
       /\ one_at_a_time run.2 = true.
Proof.
  split; [vm_compute; reflexivity|].
  apply (call_count_and_order (canned (JsString.lit " ok ")) (JsString.lit "abc")
           (JsString.lit "ok")).
  vm_compute. reflexivity.
Defined.

(** C4. Fail-fast: when the call for chunk [k] fails (it rejects, or its
    response has no text to trim) after the calls for the chunks before it
    succeeded, the run throws that failure, the calls made are those for
    the chunks [0..k] and no other, and the last call is never made. *)
Theorem fail_fast (ai : Provider) (fullText : jsstring) (chunks : list jsstring)
    (k : nat) (chunk : jsstring) (e : JsError) :
  chunkText fullText default_chunkSize = Some chunks ->
  chunks !! k = Some chunk ->
  (forall j earlier,
     (j < k)%nat -> chunks !! j = Some earlier ->
     failure (ai (take j (chunk_requests chunks)) (chunk_request j earlier)) = None) ->
  failure (ai (take k (chunk_requests chunks)) (chunk_request k chunk)) = Some e ->
  exists tr,
    summarizeLongText fullText ai [] = (Threw e, tr)
    /\ requests tr = take (S k) (chunk_requests chunks)
    /\ length (requests tr) = S k
    /\ (forall j later,
          (k < j)%nat -> chunks !! j = Some later -> requests tr !! j = None)
    /\ (forall chunkSummaries, final_request chunkSummaries ∉ requests tr).
Proof.
  intros Hchunks Hk Hbefore Hfail.
  destruct (summarizeLongText_run ai fullText) as (chunks' & Hchunks' & _ & Hthrow).
  assert (chunks' = chunks) as -> by congruence.
  set (xs := exchanges ai [] (chunk_requests chunks)) in *.
  pose proof (lookup_lt_Some _ _ _ Hk) as Hlt.
  assert (xs !! k = Some (chunk_request k chunk,
                          ai (take k (chunk_requests chunks)) (chunk_request k chunk)))
    as Hx.
  { subst xs. rewrite (exchanges_lookup_Some ai _ [] k (chunk_request k chunk));
      [reflexivity | by rewrite chunk_requests_lookup, Hk]. }
  assert (Forall (fun x => failure x.2 = None) (take k xs)) as Hall.
  { apply Forall_lookup. intros j y Hy. apply lookup_take_Some in Hy as [Hy Hj].
    destruct (lookup_lt_is_Some_2 chunks j) as [earlier Hearlier]; [lia|].
    subst xs. rewrite (exchanges_lookup_Some ai _ [] j (chunk_request j earlier)) in Hy
      by (by rewrite chunk_requests_lookup, Hearlier).
    injection Hy as <-. by apply Hbefore. }
  pose proof (take_drop_middle _ _ _ Hx) as Hsplit. symmetry in Hsplit.
  assert (length (take k xs) = k) as Hlen.
  { rewrite length_take. subst xs. rewrite length_exchanges, length_chunk_requests. lia. }
  eexists. split; [exact (Hthrow _ _ _ _ Hsplit Hall Hfail)|].
  rewrite (failing_run_requests _ _ _ _ Hsplit), Hlen.
  subst xs. rewrite exchanges_fst.
  assert (length (take (S k) (chunk_requests chunks)) = S k) as Hcalls
    by (rewrite length_take, length_chunk_requests; lia).
  repeat split; [done | |].
  - intros j later Hj _. apply lookup_ge_None. lia.
  - intros sums Hin. apply list_elem_of_lookup in Hin as [i Hi].
    apply lookup_take_Some in Hi as [Hi _].
    rewrite chunk_requests_lookup in Hi.
    destruct (chunks !! i) as [c|]; [|done].
    change (Some (chunk_request i c) = Some (final_request sums)) in Hi.
    apply (chunk_request_not_final i c sums). congruence.
Qed.

Lemma fail_fast_witness :
  let chunks := [letters 6000; letters 6000; letters 1] in
  chunkText (letters 12001) default_chunkSize = Some chunks
  /\ exists tr,
       summarizeLongText (letters 12001) (failing_at 1 outage (JsString.lit "ok")) []
       = (Threw outage, tr)
       /\ requests tr = take 2 (chunk_requests chunks)
       /\ length (requests tr) = 2%nat
       /\ (forall j later,
             (1 < j)%nat -> chunks !! j = Some later -> requests tr !! j = None)
       /\ (forall chunkSummaries, final_request chunkSummaries ∉ requests tr).
Proof.
  intros chunks. split; [vm_compute; reflexivity|].
  apply (fail_fast (failing_at 1 outage (JsString.lit "ok")) (letters 12001) chunks
           1 (letters 6000) outage).
  - vm_compute; reflexivity.
  - reflexivity.
  - intros [|j] earlier Hj Hearlier; [reflexivity | lia].
  - reflexivity.
Defined.

(** C5. Order preservation: when the last call is made, its prompt holds
    the summaries of the chunks in the order of the chunks, joined by one
    line break, so the summary of an earlier chunk comes before the
    summary of a later one. *)
Theorem order_preservation (ai : Provider) (fullText : jsstring)
    (chunks : list jsstring) (c : Completion jsstring) (tr : list Event)
    (req : GenerateContentParameters) :
  chunkText fullText default_chunkSize = Some chunks ->
  summarizeLongText fullText ai [] = (c, tr) ->
  requests tr !! length chunks = Some req ->
  exists chunkSummaries,
    contents req
    = LF ++ JsString.lit "Combine all summaries into a final chapter summary:"
         ++ LF ++ LF ++ JsString.join LF chunkSummaries ++ LF ++ JsString.lit "    "
    /\ length chunkSummaries = length chunks
    /\ (forall i chunk,
          chunks !! i = Some chunk ->
          exists outcome raw,
            exchange_at tr i (chunk_request i chunk) outcome
            /\ raw_text outcome = Some raw
            /\ chunkSummaries !! i = Some (JsString.trim raw))
    /\ (forall i j a b,
          (i < j)%nat ->
          chunkSummaries !! i = Some a -> chunkSummaries !! j = Some b ->
          exists pre mid post, contents req = pre ++ a ++ LF ++ mid ++ b ++ post).
Proof.
  intros Hchunks Hrun Hreq.
  destruct (run_cases _ _ _ _ _ Hchunks Hrun)
    as [(Hall & o & _ & ->) | (xs1 & x & xs2 & e & Heq & _ & _ & _ & ->)].
  - set (xs := exchanges ai [] (chunk_requests chunks)) in *.
    rewrite requests_events_of, fmap_app in Hreq.
    rewrite lookup_app_r in Hreq;
      subst xs; rewrite exchanges_fst, length_chunk_requests in *; [|done].
    rewrite Nat.sub_diag in Hreq. injection Hreq as <-.
    set (xs := exchanges ai [] (chunk_requests chunks)) in *.
    exists (summaries_of xs). split; [reflexivity|]. split; [|split].
    + rewrite length_summaries_of by done.
      subst xs. by rewrite length_exchanges, length_chunk_requests.
    + intros i chunk Hchunk. by apply run_summaries.
    + intros i j a b Hij Ha Hb.
      destruct (join_precedes LF _ _ _ _ _ Hij Ha Hb) as (pre & mid & post & Hjoin).
      exists (LF ++ JsString.lit "Combine all summaries into a final chapter summary:"
                 ++ LF ++ LF ++ pre), mid, (post ++ LF ++ JsString.lit "    ").
      simpl contents. unfold final_prompt. rewrite Hjoin.
      by rewrite <- !app_assoc.
  - rewrite (failing_run_requests _ _ _ _ Heq), exchanges_fst in Hreq.
    apply lookup_take_Some in Hreq as [_ Hlt].
    apply (f_equal length) in Heq.
    rewrite length_exchanges, length_chunk_requests, length_app in Heq.
    simpl in Heq. lia.
Qed.

Lemma order_preservation_witness :
  let chunks := [letters 6000; letters 1] in
  let run := summarizeLongText (letters 6001) numbering [] in
  chunkText (letters 6001) default_chunkSize = Some chunks
  /\ exists chunkSummaries,
       contents (final_request [JsString.lit "0"; JsString.lit "1"])
       = LF ++ JsString.lit "Combine all summaries into a final chapter summary:"
            ++ LF ++ LF ++ JsString.join LF chunkSummaries ++ LF ++ JsString.lit "    "
       /\ length chunkSummaries = length chunks
       /\ (forall i chunk,
             chunks !! i = Some chunk ->
             exists outcome raw,
               exchange_at run.2 i (chunk_request i chunk) outcome
               /\ raw_text outcome = Some raw
               /\ chunkSummaries !! i = Some (JsString.trim raw))
       /\ (forall i j a b,
             (i < j)%nat ->
             chunkSummaries !! i = Some a -> chunkSummaries !! j = Some b ->
             exists pre mid post,
               contents (final_request [JsString.lit "0"; JsString.lit "1"])
               = pre ++ a ++ LF ++ mid ++ b ++ post).
Proof.
  intros chunks run. split; [vm_compute; reflexivity|].
  apply (order_preservation numbering (letters 6001) chunks run.1 run.2).
  - vm_compute; reflexivity.
  - apply surjective_pairing.
  - vm_compute; reflexivity.
Defined.

(** C9. Output normalization: in a run that returns, the summary kept for
    each chunk is the raw text of the response to its call with the white
    space at both ends removed, and the value returned is the raw text of
    the response to the last call treated the same way; removing that
    white space is all [trim] does. *)
Theorem output_normalization (ai : Provider) (fullText final : jsstring)
    (tr : list Event) :
  summarizeLongText fullText ai [] = (Returned final, tr) ->
  exists chunks chunkSummaries,
    chunkText fullText default_chunkSize = Some chunks
    /\ length chunkSummaries = length chunks
    /\ (forall i chunk,
          chunks !! i = Some chunk ->
          exists outcome raw,
            exchange_at tr i (chunk_request i chunk) outcome
            /\ raw_text outcome = Some raw
            /\ chunkSummaries !! i = Some (JsString.trim raw))
    /\ (exists outcome raw,
          exchange_at tr (length chunks) (final_request chunkSummaries) outcome
          /\ raw_text outcome = Some raw
          /\ final = JsString.trim raw)
    /\ (forall raw : jsstring,
          exists ws1 ws2,
            raw = ws1 ++ JsString.trim raw ++ ws2
            /\ Forall (fun u => JsString.is_white_space u = true) ws1
            /\ Forall (fun u => JsString.is_white_space u = true) ws2
            /\ (forall u, head (JsString.trim raw) = Some u ->
                          JsString.is_white_space u = false)
            /\ (forall u, last (JsString.trim raw) = Some u ->
                          JsString.is_white_space u = false)).
Proof.
  intros Hrun.
  destruct (summarizeLongText_run ai fullText) as (chunks & Hchunks & _).
  destruct (run_cases _ _ _ _ _ Hchunks Hrun)
    as [(Hall & o & Hfinal & ->) | (? & ? & ? & ? & _ & _ & _ & [=] & _)].
  set (xs := exchanges ai [] (chunk_requests chunks)) in *.
  exists chunks, (summaries_of xs). split; [done|]. split; [|split; [|split]].
  - rewrite length_summaries_of by done.
    subst xs. by rewrite length_exchanges, length_chunk_requests.
  - intros i chunk Hchunk. by apply run_summaries.
  - destruct o as [[[raw|]]|]; simplify_eq/=.
    exists (Fulfilled {| text := Some raw |}), raw.
    split; [apply run_last_call | done].
  - apply trim_spec.
Qed.

Lemma output_normalization_witness :
  let run := summarizeLongText (JsString.lit "abc") (canned (JsString.lit " ok ")) [] in
  run = (Returned (JsString.lit "ok"), run.2)
  /\ exists chunks chunkSummaries,
       chunkText (JsString.lit "abc") default_chunkSize = Some chunks
       /\ length chunkSummaries = length chunks
       /\ (forall i chunk,
             chunks !! i = Some chunk ->
             exists outcome raw,
               exchange_at run.2 i (chunk_request i chunk) outcome
               /\ raw_text outcome = Some raw
               /\ chunkSummaries !! i = Some (JsString.trim raw))
       /\ (exists outcome raw,
             exchange_at run.2 (length chunks) (final_request chunkSummaries) outcome
             /\ raw_text outcome = Some raw
             /\ JsString.lit "ok" = JsString.trim raw)
       /\ (forall raw : jsstring,
             exists ws1 ws2,
               raw = ws1 ++ JsString.trim raw ++ ws2
               /\ Forall (fun u => JsString.is_white_space u = true) ws1
               /\ Forall (fun u => JsString.is_white_space u = true) ws2
               /\ (forall u, head (JsString.trim raw) = Some u ->
                             JsString.is_white_space u = false)
               /\ (forall u, last (JsString.trim raw) = Some u ->
                             JsString.is_white_space u = false)).
Proof.
  split; [vm_compute; reflexivity|].
  apply (output_normalization (canned (JsString.lit " ok ")) (JsString.lit "abc")
           (JsString.lit "ok")).
  vm_compute. reflexivity.
Defined.

(** C3, as the code has it. The call for chunk [i] carries the model name
    and a prompt made of fixed text, the ordinal [i + 1] and the text of
    the chunk; the prompt is built from the index and the chunk alone, the
    number of chunks is no part of it. *)
Theorem chunk_prompt_embeds_ordinal (ai : Provider) (fullText : jsstring)
    (chunks : list jsstring) (c : Completion jsstring) (tr : list Event)
    (i : nat) (req : GenerateContentParameters) :
  chunkText fullText default_chunkSize = Some chunks ->
  summarizeLongText fullText ai [] = (c, tr) ->
  (i < length chunks)%nat ->
  requests tr !! i = Some req ->
  exists chunk,
    chunks !! i = Some chunk
    /\ model req = JsString.lit "gemini-2.5-flash"
    /\ contents req
       = LF ++ JsString.lit "You are summarizing part "
            ++ JsString.of_number (N.of_nat (i + 1)) ++ JsString.lit "." ++ LF
            ++ JsString.lit "Write 5-8 bullet points covering major events, characters, emotions, clues:"
            ++ LF ++ LF ++ chunk ++ LF
    /\ JsString.occurs_in (JsString.of_number (N.of_nat (i + 1))) (contents req)
    /\ JsString.occurs_in chunk (contents req).
Proof.
  intros Hchunks Hrun Hi Hreq.
  pose proof (run_chunk_calls _ _ _ _ _ _ _ Hchunks Hrun Hi Hreq) as Hcall.
  rewrite chunk_requests_lookup in Hcall.
  destruct (chunks !! i) as [chunk|]; [|done].
  injection Hcall as <-. exists chunk. repeat split.
  - by exists (LF ++ JsString.lit "You are summarizing part "),
             (JsString.lit "." ++ LF
              ++ JsString.lit "Write 5-8 bullet points covering major events, characters, emotions, clues:"
              ++ LF ++ LF ++ chunk ++ LF).
  - exists (LF ++ JsString.lit "You are summarizing part "
               ++ JsString.of_number (N.of_nat (i + 1)) ++ JsString.lit "." ++ LF
               ++ JsString.lit "Write 5-8 bullet points covering major events, characters, emotions, clues:"
               ++ LF ++ LF), LF.
    simpl contents. unfold chunk_prompt. by rewrite <- !app_assoc.
Qed.

Lemma chunk_prompt_embeds_ordinal_witness :
  let chunks := [letters 6000; letters 1] in
  let run := summarizeLongText (letters 6001) (canned (JsString.lit "ok")) [] in
  chunkText (letters 6001) default_chunkSize = Some chunks
  /\ requests run.2 !! 1%nat = Some (chunk_request 1 (letters 1))
  /\ exists chunk,
       chunks !! 1%nat = Some chunk
       /\ model (chunk_request 1 (letters 1)) = JsString.lit "gemini-2.5-flash"
       /\ contents (chunk_request 1 (letters 1))
          = LF ++ JsString.lit "You are summarizing part "
               ++ JsString.of_number (N.of_nat (1 + 1)) ++ JsString.lit "." ++ LF
               ++ JsString.lit "Write 5-8 bullet points covering major events, characters, emotions, clues:"
               ++ LF ++ LF ++ chunk ++ LF
       /\ JsString.occurs_in (JsString.of_number (N.of_nat (1 + 1)))
            (contents (chunk_request 1 (letters 1)))
       /\ JsString.occurs_in chunk (contents (chunk_request 1 (letters 1))).
Proof.
  intros chunks run.
  split; [vm_compute; reflexivity|]. split; [vm_compute; reflexivity|].
  apply (chunk_prompt_embeds_ordinal (canned (JsString.lit "ok")) (letters 6001)
           chunks run.1 run.2 1 (chunk_request 1 (letters 1))).
  - vm_compute; reflexivity.
  - apply surjective_pairing.
  - simpl; lia.
  - vm_compute; reflexivity.
Defined.

(** C3, as stated, fails: a text of 6001 code units makes two chunks, and
    the prompt of the call for the first one holds the ordinal 1 but not
    the total 2; it is the very prompt the same chunk gets when it is the
    only one. *)
Lemma total_not_in_chunk_prompt :
  let chunks := [letters 6000; letters 1] in
  let run := summarizeLongText (letters 6001) (canned (JsString.lit "ok")) [] in
  let alone := summarizeLongText (letters 6000) (canned (JsString.lit "ok")) [] in
  chunkText (letters 6001) default_chunkSize = Some chunks
  /\ chunkText (letters 6000) default_chunkSize = Some [letters 6000]
  /\ exists req,
       requests run.2 !! 0%nat = Some req
       /\ requests alone.2 !! 0%nat = Some req
       /\ JsString.occurs_in (JsString.of_number 1) (contents req)
       /\ ~ JsString.occurs_in (JsString.of_number (N.of_nat (length chunks)))
            (contents req).
Proof.
  intros chunks run alone.
  split; [vm_compute; reflexivity|]. split; [vm_compute; reflexivity|].
  exists (chunk_request 0 (letters 6000)).
  split; [vm_compute; reflexivity|]. split; [vm_compute; reflexivity|]. split.
  - eexists (LF ++ JsString.lit "You are summarizing part "), _. reflexivity.
  - intros Hin. apply occurs_in_includes in Hin. vm_compute in Hin. discriminate.
Qed.

(** C1, as the code has it. On the empty text the pipeline has no chunk to
    summarize and goes straight to the last call, with no summary in its
    prompt; what that call brings decides the run, and the handler answers
    with it. *)
Theorem empty_input_is_synthesized (ai : Provider) :
  let outcome := ai [] (final_request []) in
  let tr := [Call (final_request []); Settle outcome] in
  chunkText (JsString.lit "") default_chunkSize = Some []
  /\ summarizeLongText (JsString.lit "") ai [] = (completion_of outcome, tr)
  /\ contents (final_request [])
     = LF ++ JsString.lit "Combine all summaries into a final chapter summary:"
          ++ LF ++ LF ++ LF ++ JsString.lit "    "
  /\ forall url chapterLinks,
       scrape_respond url [] chapterLinks ai []
       = (match completion_of outcome with
          | Returned summary =>
              Some (Success 0 summary (prev chapterLinks) (next chapterLinks) url)
          | Threw error => Some (Failure (message error))
          | Unfinished => None
          end, tr).
Proof.
  intros outcome tr.
  assert (summarizeLongText (JsString.lit "") ai [] = (completion_of outcome, tr)) as Hrun.
  { destruct (summarizeLongText_run ai (JsString.lit "")) as (chunks & Hchunks & Hok & _).
    assert (chunks = []) as -> by (by injection Hchunks).
    exact (Hok (Forall_nil_2 _)). }
  split; [reflexivity|]. split; [exact Hrun|]. split; [reflexivity|].
  intros url chapterLinks. unfold scrape_respond.
  change (JsString.join LF []) with (JsString.lit ""). rewrite Hrun.
  destruct (completion_of outcome); reflexivity.
Qed.

(** C1, as stated, fails: with a provider that answers, the run on the
    empty text does not throw; it makes the last call, with no summary in
    its prompt, and returns the answer trimmed, and the handler reports a
    success. *)
Lemma empty_input_reaches_synthesis :
  let ai := canned (JsString.lit " ok ") in
  let tr := [Call (final_request []);
             Settle (Fulfilled {| text := Some (JsString.lit " ok ") |})] in
  summarizeLongText (JsString.lit "") ai [] = (Returned (JsString.lit "ok"), tr)
  /\ Call (final_request []) ∈ tr
  /\ (forall e tr', summarizeLongText (JsString.lit "") ai [] <> (Threw e, tr'))
  /\ scrape_respond (JsString.lit "https://example.org/chapter-1") []
       {| prev := None; next := None |} ai []
     = (Some (Success 0 (JsString.lit "ok") None None
                (JsString.lit "https://example.org/chapter-1")), tr).
Proof.
  intros ai tr. split; [vm_compute; reflexivity|]. split; [left|].
  split; [|vm_compute; reflexivity].
  intros e tr' Hrun. vm_compute in Hrun. discriminate.
Qed.

(** * Further properties of the code *)

(** ** Where the chunks lie *)

(** In a list cut into pieces of [c] elements, the last one maybe shorter,
    piece [k] is what lies at offset [k * c]. *)
Lemma concat_window {A} (c : nat) (front : list (list A)) (last : list A) :
  Forall (fun y => length y = c) front ->
  (length last <= c)%nat ->
  forall k x,
    (front ++ [last]) !! k = Some x ->
    x = take c (drop (k * c) (concat (front ++ [last]))).
Proof.
  intros Hfront Hlast. induction Hfront as [|y front Hy _ IH]; intros k x Hx.
  - destruct k as [|k]; [|done]. injection Hx as <-.
    simpl. rewrite app_nil_r, drop_0. by rewrite take_ge by lia.
  - destruct k as [|k]; simpl in Hx.
    + injection Hx as <-. simpl. by rewrite drop_0, take_app_length' by done.
    + simpl concat. replace (S k * c)%nat with (length y + k * c)%nat by lia.
      rewrite drop_app_add'; [|done]. by apply IH.
Qed.

(** The chunks, by position and by number. *)
Lemma chunkText_lookup (s : jsstring) (chunkSize : Z) :
  0 < chunkSize ->
  exists chunks,
    chunkText s chunkSize = Some chunks
    /\ Z.of_nat (length chunks) = ceil_div (JsString.len s) chunkSize
    /\ forall k : nat,
         chunks !! k
         = if bool_decide (Z.of_nat k * chunkSize < JsString.len s)
           then Some (take (Z.to_nat chunkSize) (drop (k * Z.to_nat chunkSize) s))
           else None.
Proof.
  intros Hsize.
  destruct (chunkText_spec s chunkSize Hsize) as (chunks & Hrun & _ & Hcat & Hn & Hsz).
  exists chunks. split; [done|]. split; [done|]. intros k.
  assert (0 <= JsString.len s) as HL by (unfold JsString.len; lia).
  pose proof (ceil_div_least (JsString.len s) chunkSize Hsize HL) as Hceil.
  unfold JsString.len in *.
  destruct (decide (s = [])) as [-> | Hs].
  - simpl in *. rewrite ceil_div_0 in Hn by done.
    assert (chunks = []) as -> by (apply length_zero_iff_nil; lia).
    rewrite bool_decide_eq_false_2 by lia. done.
  - destruct (Hsz Hs) as (front & last & -> & Hfront & Hlast).
    assert (length last <= Z.to_nat chunkSize)%nat as Hle.
    { destruct (Z.eqb_spec (Z.of_nat (length s) `mod` chunkSize) 0); [lia|].
      pose proof (Z.mod_pos_bound (Z.of_nat (length s)) chunkSize Hsize). lia. }
    assert (Forall (fun y : list N => length y = Z.to_nat chunkSize) front) as Hfront'.
    { eapply Forall_impl; [exact Hfront|]. simpl. intros y Hy. lia. }
    unfold JsString.t in *. case_bool_decide as Hk.
    + destruct (lookup_lt_is_Some_2 (front ++ [last]) k) as [x Hx].
      { assert (Z.of_nat k < ceil_div (Z.of_nat (length s)) chunkSize); [|lia].
        clear -Hceil Hk Hsize. nia. }
      pose proof (concat_window _ _ _ Hfront' Hle k x Hx) as Hwin.
      assert (x = take (Z.to_nat chunkSize) (drop (k * Z.to_nat chunkSize) s)) as <-;
        [|exact Hx].
      etrans; [exact Hwin|]. do 2 f_equal. exact Hcat.
    + apply lookup_ge_None.
      assert (ceil_div (Z.of_nat (length s)) chunkSize <= Z.of_nat k); [|lia].
      clear -Hceil Hk Hsize. nia.
Qed.

(** X1. The chunks are the consecutive windows: chunk [k] is the code
    units from offset [k * chunkSize] up to [chunkSize] of them, and
    there is no chunk past the last window. *)
Theorem chunkText_windows (s : jsstring) (chunkSize : Z) :
  0 < chunkSize ->
  exists chunks,
    chunkText s chunkSize = Some chunks
    /\ forall k : nat,
         chunks !! k
         = if bool_decide (Z.of_nat k * chunkSize < JsString.len s)
           then Some (take (Z.to_nat chunkSize) (drop (k * Z.to_nat chunkSize) s))
           else None.
Proof.
  intros Hsize.
  destruct (chunkText_lookup s chunkSize Hsize) as (chunks & Hrun & _ & Hlookup).
  by exists chunks.
Qed.

Lemma chunkText_windows_witness :
  0 < 3
  /\ exists chunks,
       chunkText (JsString.lit "abcdefg") 3 = Some chunks
       /\ forall k : nat,
            chunks !! k
            = if bool_decide (Z.of_nat k * 3 < JsString.len (JsString.lit "abcdefg"))
              then Some (take (Z.to_nat 3) (drop (k * Z.to_nat 3) (JsString.lit "abcdefg")))
              else None.
Proof. split; [lia | apply (chunkText_windows (JsString.lit "abcdefg") 3); lia]. Defined.

(** A chunk is not empty and not longer than [chunkSize]. *)
Lemma chunk_len_bounds (s : jsstring) (chunkSize : Z) chunks (k : nat) chunk :
  0 < chunkSize ->
  chunkText s chunkSize = Some chunks ->
  chunks !! k = Some chunk ->
  0 < JsString.len chunk <= chunkSize.
Proof.
  intros Hsize Hchunks Hk.
  destruct (chunkText_spec s chunkSize Hsize) as (chunks' & Hrun & _ & _ & Hn & Hsz).
  assert (chunks' = chunks) as -> by congruence.
  destruct (decide (s = [])) as [-> | Hs].
  - rewrite ceil_div_0 in Hn by done.
    assert (chunks = []) as -> by (apply length_zero_iff_nil; lia). done.
  - destruct (Hsz Hs) as (front & last & -> & Hfront & Hlast).
    apply lookup_app_Some in Hk as [Hk | [_ Hk]].
    + by rewrite (Forall_lookup_1 _ _ _ _ Hfront Hk).
    + apply list_lookup_singleton_Some in Hk as [_ <-].
      destruct (Z.eqb_spec (JsString.len s `mod` chunkSize) 0); [lia|].
      pose proof (Z.mod_pos_bound (JsString.len s) chunkSize Hsize). lia.
Qed.

(** X2. No chunk is empty and none is longer than [chunkSize]. *)
Theorem chunkText_chunk_bounds (s : jsstring) (chunkSize : Z) :
  0 < chunkSize ->
  exists chunks,
    chunkText s chunkSize = Some chunks
    /\ Forall (fun chunk => 0 < JsString.len chunk <= chunkSize) chunks.
Proof.
  intros Hsize.
  destruct (chunkText_spec s chunkSize Hsize) as (chunks & Hrun & _).
  exists chunks. split; [done|].
  apply Forall_lookup. intros k chunk Hk.
  by apply (chunk_len_bounds s chunkSize chunks k chunk).
Qed.

Lemma chunkText_chunk_bounds_witness :
  0 < 3
  /\ exists chunks,
       chunkText (JsString.lit "abcdefg") 3 = Some chunks
       /\ Forall (fun chunk => 0 < JsString.len chunk <= 3) chunks.
Proof. split; [lia | apply (chunkText_chunk_bounds (JsString.lit "abcdefg") 3); lia]. Defined.

(** X3. A text gives one chunk, itself, exactly when it is not empty
    and not longer than [chunkSize]. *)
Theorem chunkText_single (s : jsstring) (chunkSize : Z) :
  0 < chunkSize ->
  chunkText s chunkSize = Some [s] <-> 0 < JsString.len s <= chunkSize.
Proof.
  intros Hsize.
  destruct (chunkText_spec s chunkSize Hsize) as (chunks & Hrun & _ & Hcat & Hn & _).
  assert (0 <= JsString.len s) as HL by (unfold JsString.len; lia).
  pose proof (ceil_div_least (JsString.len s) chunkSize Hsize HL) as Hceil.
  rewrite Hrun. split.
  - intros [= ->]. simpl in Hn. nia.
  - intros Hlen. f_equal.
    assert (length chunks = 1%nat) as Hone by nia.
    destruct chunks as [|c [|c' chunks]]; simplify_eq/=.
    by rewrite app_nil_r.
Qed.

Lemma chunkText_single_witness :
  0 < 6000
  /\ (chunkText (JsString.lit "abc") 6000 = Some [JsString.lit "abc"]
      <-> 0 < JsString.len (JsString.lit "abc") <= 6000).
Proof. split; [lia | apply (chunkText_single (JsString.lit "abc") 6000); lia]. Defined.

(** X4. Chunking goes along with concatenation at a chunk boundary:
    when the length of [a] is a multiple of [chunkSize], the chunks of
    [a ++ b] are the chunks of [a] followed by the chunks of [b]. *)
Theorem chunkText_app (a b : jsstring) (chunkSize : Z) :
  0 < chunkSize ->
  JsString.len a mod chunkSize = 0 ->
  exists chunks_a chunks_b,
    chunkText a chunkSize = Some chunks_a
    /\ chunkText b chunkSize = Some chunks_b
    /\ chunkText (a ++ b) chunkSize = Some (chunks_a ++ chunks_b).
Proof.
  intros Hsize Hmod.
  destruct (chunkText_lookup a chunkSize Hsize) as (ca & Ha & Hna & Hca).
  destruct (chunkText_lookup b chunkSize Hsize) as (cb & Hb & _ & Hcb).
  destruct (chunkText_lookup (a ++ b) chunkSize Hsize) as (cab & Hab & _ & Hcab).
  exists ca, cb. split; [done|]. split; [done|]. rewrite Hab. f_equal.
  unfold JsString.len, JsString.t in *.
  assert (0 <= Z.of_nat (length a)) as HLa by lia.
  pose proof (ceil_div_least _ chunkSize Hsize HLa) as Hceil.
  pose proof (Z.div_mod (Z.of_nat (length a)) chunkSize ltac:(lia)) as Hdiv.
  rewrite Hmod, Z.add_0_r in Hdiv.
  set (cs := Z.to_nat chunkSize) in *.
  assert (length a = (length ca * cs)%nat) as Hlen.
  { assert (Z.of_nat (length ca) = Z.of_nat (length a) / chunkSize) as Hq; [|subst cs; nia].
    rewrite Hna. clear -Hceil Hdiv Hsize.
    pose proof (Z.div_pos (Z.of_nat (length a)) chunkSize). nia. }
  apply list_eq. intros k. rewrite Hcab, length_app.
  destruct (decide (k < length ca)%nat) as [Hk | Hk].
  - rewrite lookup_app_l by done. rewrite Hca.
    rewrite !bool_decide_eq_true_2 by (subst cs; nia). f_equal.
    rewrite drop_app_le by (subst cs; nia).
    apply take_app_le. rewrite length_drop. subst cs; nia.
  - rewrite lookup_app_r by lia. rewrite Hcb.
    rewrite drop_app_ge by (subst cs; nia).
    replace (k * cs - length a)%nat with ((k - length ca) * cs)%nat by nia.
    case_bool_decide as H1; case_bool_decide as H2; try done; subst cs; nia.
Qed.

Lemma chunkText_app_witness :
  0 < 3 /\ JsString.len (JsString.lit "abcdef") mod 3 = 0
  /\ exists chunks_a chunks_b,
       chunkText (JsString.lit "abcdef") 3 = Some chunks_a
       /\ chunkText (JsString.lit "gh") 3 = Some chunks_b
       /\ chunkText (JsString.lit "abcdef" ++ JsString.lit "gh") 3
          = Some (chunks_a ++ chunks_b).
Proof.
  split; [lia|]. split; [reflexivity|].
  apply (chunkText_app (JsString.lit "abcdef") (JsString.lit "gh") 3); [lia | reflexivity].
Defined.

(** ** More on the runs of the pipeline *)

Lemma chunk_calls_succeed ai chunks :
  (forall j chunk,
     chunks !! j = Some chunk ->
     failure (ai (take j (chunk_requests chunks)) (chunk_request j chunk)) = None) ->
  Forall (fun x => failure x.2 = None) (exchanges ai [] (chunk_requests chunks)).
Proof.
  intros Hok. apply Forall_lookup. intros j x Hx.
  pose proof (lookup_lt_Some _ _ _ Hx) as Hj.
  rewrite length_exchanges, length_chunk_requests in Hj.
  destruct (lookup_lt_is_Some_2 chunks j Hj) as [chunk Hchunk].
  rewrite (exchanges_lookup_Some ai _ [] j (chunk_request j chunk)) in Hx
    by (by rewrite chunk_requests_lookup, Hchunk).
  injection Hx as <-. by apply Hok.
Qed.

(** X5. When the call for every chunk succeeds and the last call brings
    a text, the run returns that text trimmed, after [n + 1] calls. *)
Theorem summarizeLongText_returns (ai : Provider) (fullText : jsstring)
    (chunks : list jsstring) (raw : jsstring) :
  chunkText fullText default_chunkSize = Some chunks ->
  (forall j chunk,
     chunks !! j = Some chunk ->
     failure (ai (take j (chunk_requests chunks)) (chunk_request j chunk)) = None) ->
  raw_text (ai (chunk_requests chunks)
              (final_request (summaries_of (exchanges ai [] (chunk_requests chunks)))))
  = Some raw ->
  exists tr,
    summarizeLongText fullText ai [] = (Returned (JsString.trim raw), tr)
    /\ length (requests tr) = (length chunks + 1)%nat.
Proof.
  intros Hchunks Hok Hraw.
  destruct (summarizeLongText_run ai fullText) as (chunks' & Hchunks' & Hall & _).
  assert (chunks' = chunks) as -> by congruence.
  rewrite (Hall (chunk_calls_succeed _ _ Hok)).
  eexists. split.
  - f_equal. destruct (ai _ _) as [[[t|]]|]; by simplify_eq/=.
  - rewrite requests_events_of, fmap_app, exchanges_fst, length_app,
      length_chunk_requests. reflexivity.
Qed.

Lemma summarizeLongText_returns_witness :
  let chunks := [letters 6000; letters 1] in
  chunkText (letters 6001) default_chunkSize = Some chunks
  /\ exists tr,
       summarizeLongText (letters 6001) numbering []
       = (Returned (JsString.trim (JsString.lit "2")), tr)
       /\ length (requests tr) = (length chunks + 1)%nat.
Proof.
  intros chunks. split; [vm_compute; reflexivity|].
  apply (summarizeLongText_returns numbering (letters 6001) chunks (JsString.lit "2")).
  - vm_compute; reflexivity.
  - intros j chunk _. reflexivity.
  - vm_compute; reflexivity.
Defined.

(** X6. When the call for every chunk succeeds and the last call fails,
    the run throws that failure: all [n + 1] calls were made and no
    summary is returned. *)
Theorem synthesis_failure (ai : Provider) (fullText : jsstring)
    (chunks : list jsstring) (e : JsError) :
  chunkText fullText default_chunkSize = Some chunks ->
  (forall j chunk,
     chunks !! j = Some chunk ->
     failure (ai (take j (chunk_requests chunks)) (chunk_request j chunk)) = None) ->
  failure (ai (chunk_requests chunks)
             (final_request (summaries_of (exchanges ai [] (chunk_requests chunks)))))
  = Some e ->
  exists tr,
    summarizeLongText fullText ai [] = (Threw e, tr)
    /\ requests tr
       = chunk_requests chunks
         ++ [final_request (summaries_of (exchanges ai [] (chunk_requests chunks)))].
Proof.
  intros Hchunks Hok Hfail.
  destruct (summarizeLongText_run ai fullText) as (chunks' & Hchunks' & Hall & _).
  assert (chunks' = chunks) as -> by congruence.
  rewrite (Hall (chunk_calls_succeed _ _ Hok)).
  eexists. split.
  - f_equal. by apply completion_of_failure.
  - by rewrite requests_events_of, fmap_app, exchanges_fst.
Qed.

Lemma synthesis_failure_witness :
  let chunks := [letters 6000; letters 1] in
  let ai := failing_at 2 outage (JsString.lit "ok") in
  chunkText (letters 6001) default_chunkSize = Some chunks
  /\ exists tr,
       summarizeLongText (letters 6001) ai [] = (Threw outage, tr)
       /\ requests tr
          = chunk_requests chunks
            ++ [final_request (summaries_of (exchanges ai [] (chunk_requests chunks)))].
Proof.
  intros chunks ai. split; [vm_compute; reflexivity|].
  apply (synthesis_failure ai (letters 6001) chunks outage).
  - vm_compute; reflexivity.
  - intros [|[|j]] chunk Hchunk; [reflexivity | reflexivity | done].
  - vm_compute; reflexivity.
Defined.

(** X7. Whatever the provider does, a run makes at least one call and at
    most one per chunk plus one, that is at most [ceil (L / 6000) + 1];
    every call names the model [gemini-2.5-flash]; and every call is
    settled before the next one. *)
Theorem run_call_bounds (ai : Provider) (fullText : jsstring) :
  let tr := (summarizeLongText fullText ai []).2 in
  (1 <= length (requests tr))%nat
  /\ Z.of_nat (length (requests tr))
     <= ceil_div (JsString.len fullText) default_chunkSize + 1
  /\ Forall (fun req => model req = JsString.lit "gemini-2.5-flash") (requests tr)
  /\ one_at_a_time tr = true
  /\ length tr = (2 * length (requests tr))%nat.
Proof.
  destruct (chunkText_spec fullText default_chunkSize) as (chunks & Hchunks & _ & _ & Hn & _);
    [done|].
  destruct (summarizeLongText fullText ai []) as [c tr] eqn:Hrun. simpl.
  assert (Forall (fun req => model req = JsString.lit "gemini-2.5-flash")
            (chunk_requests chunks)) as Hmodels.
  { apply Forall_lookup. intros i req Hreq. rewrite chunk_requests_lookup in Hreq.
    destruct (chunks !! i); by simplify_eq/=. }
  assert (forall xs, length (events_of xs) = (2 * length xs)%nat) as Hevents.
  { induction xs as [|x xs IH]; [done|]. rewrite events_of_cons. simpl. lia. }
  destruct (run_cases _ _ _ _ _ Hchunks Hrun)
    as [(_ & o & _ & ->) | (xs1 & x & xs2 & e & Heq & _ & _ & _ & ->)].
  - rewrite Hevents, requests_events_of, length_fmap.
    rewrite fmap_app, exchanges_fst, length_app, length_exchanges, length_chunk_requests.
    simpl. repeat split; [lia | lia | | apply one_at_a_time_events_of].
    apply Forall_app. split; [done | by repeat constructor].
  - rewrite Hevents, (failing_run_requests _ _ _ _ Heq), exchanges_fst.
    apply (f_equal length) in Heq.
    rewrite length_exchanges, length_chunk_requests, length_app in Heq. simpl in Heq.
    rewrite length_take, length_chunk_requests, length_app, Nat.min_l by lia.
    change (length [x]) with 1%nat.
    repeat split; [lia | lia | by apply Forall_take | apply one_at_a_time_events_of | lia].
Qed.

(** X8. Each call for a chunk carries at most 6000 code units of the
    text: its prompt is the chunk, the digits of the ordinal and 106
    code units of fixed text. *)
Theorem chunk_prompt_size (ai : Provider) (fullText : jsstring)
    (chunks : list jsstring) (c : Completion jsstring) (tr : list Event)
    (i : nat) (req : GenerateContentParameters) :
  chunkText fullText default_chunkSize = Some chunks ->
  summarizeLongText fullText ai [] = (c, tr) ->
  (i < length chunks)%nat ->
  requests tr !! i = Some req ->
  exists chunk,
    chunks !! i = Some chunk
    /\ 0 < JsString.len chunk <= 6000
    /\ length (contents req)
       = (106 + length (JsString.of_number (N.of_nat (i + 1))) + length chunk)%nat.
Proof.
  intros Hchunks Hrun Hi Hreq.
  pose proof (run_chunk_calls _ _ _ _ _ _ _ Hchunks Hrun Hi Hreq) as Hcall.
  rewrite chunk_requests_lookup in Hcall.
  destruct (chunks !! i) as [chunk|] eqn:Hchunk; [|done].
  injection Hcall as <-. exists chunk. split; [done|].
  split; [by apply (chunk_len_bounds fullText default_chunkSize chunks i chunk)|].
  simpl contents. unfold chunk_prompt. rewrite !length_app. simpl. lia.
Qed.

Lemma chunk_prompt_size_witness :
  let chunks := [letters 6000; letters 1] in
  let run := summarizeLongText (letters 6001) (canned (JsString.lit "ok")) [] in
  chunkText (letters 6001) default_chunkSize = Some chunks
  /\ exists chunk,
       chunks !! 1%nat = Some chunk
       /\ 0 < JsString.len chunk <= 6000
       /\ length (contents (chunk_request 1 (letters 1)))
          = (106 + length (JsString.of_number (N.of_nat (1 + 1))) + length chunk)%nat.
Proof.
  intros chunks run. split; [vm_compute; reflexivity|].
  apply (chunk_prompt_size (canned (JsString.lit "ok")) (letters 6001)
           chunks run.1 run.2 1 (chunk_request 1 (letters 1))).
  - vm_compute; reflexivity.
  - apply surjective_pairing.
  - simpl; lia.
  - vm_compute; reflexivity.
Defined.

(** ** More on [trim] and [join] *)

Lemma trimStart_fixed (s : jsstring) :
  (forall u, head s = Some u -> visible u) -> JsString.trimStart s = s.
Proof.
  destruct s as [|c s]; [done|]. intros Hhead. simpl.
  by rewrite (Hhead c eq_refl).
Qed.

Lemma trimEnd_fixed (s : jsstring) :
  (forall u, last s = Some u -> visible u) -> JsString.trimEnd s = s.
Proof.
  intros Hlast. unfold JsString.trimEnd.
  rewrite trimStart_fixed; [apply reverse_involutive|].
  intros u. rewrite head_reverse. apply Hlast.
Qed.

(** A string that neither starts nor ends with white space is left as it
    is by [trim]. *)
Lemma trim_fixed (s : jsstring) :
  (forall u, head s = Some u -> visible u) ->
  (forall u, last s = Some u -> visible u) ->
  JsString.trim s = s.
Proof.
  intros Hhead Hlast. unfold JsString.trim.
  rewrite trimStart_fixed by done. by apply trimEnd_fixed.
Qed.

Lemma trim_idemp (s : jsstring) : JsString.trim (JsString.trim s) = JsString.trim s.
Proof.
  destruct (trim_spec s) as (_ & _ & _ & _ & _ & Hhead & Hlast).
  by apply trim_fixed.
Qed.

(** [trim] leaves nothing exactly when there is nothing but white space. *)
Lemma trim_nil_iff (s : jsstring) :
  JsString.trim s = [] <-> ~ Exists visible s.
Proof.
  destruct (trim_spec s) as (ws1 & ws2 & Hs & Hws1 & Hws2 & Hhead & _).
  split.
  - intros Hnil Hex. rewrite Hnil in Hs. simpl in Hs. rewrite Hs in Hex.
    apply Exists_app in Hex as [Hex | Hex];
      apply Exists_exists in Hex as (u & Hu & Hvis);
      [eapply Forall_forall in Hws1 | eapply Forall_forall in Hws2]; try exact Hu;
      unfold visible in Hvis; congruence.
  - intros Hnone. destruct (JsString.trim s) as [|u t] eqn:Htrim; [done|].
    exfalso. apply Hnone. rewrite Hs.
    apply Exists_app. right. apply Exists_app. left. apply Exists_cons_hd.
    by apply Hhead.
Qed.

Lemma join_nil_iff (sep : jsstring) (parts : list jsstring) :
  sep <> [] ->
  Forall (fun p => p <> []) parts ->
  JsString.join sep parts = [] <-> parts = [].
Proof.
  intros Hsep Hparts. split; [|by intros ->].
  destruct Hparts as [|p parts Hp Hparts]; [done|]. intros Hjoin. exfalso.
  destruct parts as [|q parts]; [done|].
  rewrite join_cons in Hjoin by done.
  by apply app_eq_nil in Hjoin as [? _].
Qed.

(** ** The callbacks of the page *)

Lemma paragraphs_of_Forall_clean (els : list jsstring) :
  Forall (fun p =>
            p <> []
            /\ (forall u, head p = Some u -> visible u)
            /\ (forall u, last p = Some u -> visible u))
    (paragraphs_of els).
Proof.
  unfold paragraphs_of. apply Forall_forall. intros p Hp.
  apply list_elem_of_filter in Hp as [Hlen Hp].
  apply list_elem_of_fmap in Hp as (e & -> & _).
  destruct (trim_spec e) as (_ & _ & _ & _ & _ & Hhead & Hlast).
  split; [|done]. intros Hnil. rewrite Hnil in Hlen. unfold JsString.len in Hlen.
  simpl in Hlen. lia.
Qed.

(** X9. The paragraphs handed to the pipeline are clean: none is empty,
    none starts or ends with white space; they come in the order of the
    elements and are no more than the elements. *)
Theorem paragraphs_of_clean (els : list jsstring) :
  Forall (fun p =>
            p <> []
            /\ (forall u, head p = Some u -> visible u)
            /\ (forall u, last p = Some u -> visible u))
    (paragraphs_of els)
  /\ paragraphs_of els `sublist_of` (JsString.trim <$> els)
  /\ (length (paragraphs_of els) <= length els)%nat.
Proof.
  split; [apply paragraphs_of_Forall_clean|]. unfold paragraphs_of. split.
  - apply sublist_filter.
  - etrans; [apply length_filter|]. by rewrite length_map.
Qed.

Lemma paragraphs_of_filter (els : list jsstring) :
  paragraphs_of els = JsString.trim <$> filter (Exists visible) els.
Proof.
  unfold paragraphs_of. induction els as [|e els IH]; [done|].
  change (map JsString.trim (e :: els)) with (JsString.trim e :: map JsString.trim els).
  rewrite !filter_cons, IH.
  pose proof (trim_nil_iff e) as Hnil.
  destruct (decide (Exists visible e)) as [Hvis | Hvis].
  - rewrite decide_True; [done|].
    destruct (JsString.trim e) eqn:Ht; [by apply Hnil in Hvis|].
    unfold JsString.len. simpl. lia.
  - rewrite decide_False; [done|].
    apply Hnil in Hvis. rewrite Hvis. unfold JsString.len. simpl. lia.
Qed.

(** X10. Exactly the elements with some code unit that is not white space
    are kept, each one trimmed; so [count] is the number of such
    elements. *)
Theorem paragraphs_of_kept (els : list jsstring) :
  paragraphs_of els = JsString.trim <$> filter (Exists visible) els
  /\ length (paragraphs_of els) = length (filter (Exists visible) els).
Proof.
  split; [apply paragraphs_of_filter|].
  by rewrite paragraphs_of_filter, length_fmap.
Qed.

(** X11. Extracting twice changes nothing more: the paragraphs are a
    fixed point of the callback. *)
Theorem paragraphs_of_idemp (els : list jsstring) :
  paragraphs_of (paragraphs_of els) = paragraphs_of els.
Proof.
  pose proof (paragraphs_of_Forall_clean els) as Hclean.
  induction Hclean as [|p ps (Hp & Hhead & Hlast) _ IH]; [done|].
  unfold paragraphs_of in *.
  change (map JsString.trim (p :: ps)) with (JsString.trim p :: map JsString.trim ps).
  rewrite filter_cons, IH, (trim_fixed p) by done.
  rewrite decide_True; [done|].
  destruct p; [done | unfold JsString.len; simpl; lia].
Qed.

Lemma chapterLinks_of_snoc links l :
  chapterLinks_of (links ++ [l]) = chapterLinks_step (chapterLinks_of links) l.
Proof. unfold chapterLinks_of. by rewrite fold_left_app. Qed.

Lemma chapterLinks_step_prev acc l :
  prev (chapterLinks_step acc l)
  = if bool_decide (Anchor.id l = JsString.lit "prev_chap")
    then Some (Anchor.href l) else prev acc.
Proof. unfold chapterLinks_step. by repeat case_bool_decide. Qed.

Lemma chapterLinks_step_next acc l :
  next (chapterLinks_step acc l)
  = if bool_decide (Anchor.id l = JsString.lit "next_chap")
    then Some (Anchor.href l) else next acc.
Proof. unfold chapterLinks_step. by repeat case_bool_decide. Qed.

Lemma chapterLinks_of_prev (links : list Anchor.t) :
  prev (chapterLinks_of links)
  = last (Anchor.href <$> filter (fun l => Anchor.id l = JsString.lit "prev_chap") links).
Proof.
  induction links as [|l links IH] using rev_ind; [done|].
  rewrite chapterLinks_of_snoc, chapterLinks_step_prev, IH.
  rewrite filter_app, fmap_app, filter_cons, filter_nil.
  case_bool_decide as Hl.
  - rewrite decide_True by done. simpl. by rewrite last_snoc.
  - rewrite decide_False by done. simpl. by rewrite app_nil_r.
Qed.

Lemma chapterLinks_of_next (links : list Anchor.t) :
  next (chapterLinks_of links)
  = last (Anchor.href <$> filter (fun l => Anchor.id l = JsString.lit "next_chap") links).
Proof.
  induction links as [|l links IH] using rev_ind; [done|].
  rewrite chapterLinks_of_snoc, chapterLinks_step_next, IH.
  rewrite filter_app, fmap_app, filter_cons, filter_nil.
  case_bool_decide as Hl.
  - rewrite decide_True by done. simpl. by rewrite last_snoc.
  - rewrite decide_False by done. simpl. by rewrite app_nil_r.
Qed.

(** X12. The navigation links: [prev] is the [href] of the last anchor
    whose id is [prev_chap], [null] when there is none, and likewise
    [next] with [next_chap]; anchors with other ids play no part, and a
    page without links gives two [null]s. *)
Theorem chapterLinks_of_last (links : list Anchor.t) :
  prev (chapterLinks_of links)
  = last (Anchor.href <$> filter (fun l => Anchor.id l = JsString.lit "prev_chap") links)
  /\ next (chapterLinks_of links)
     = last (Anchor.href <$> filter (fun l => Anchor.id l = JsString.lit "next_chap") links)
  /\ (forall other,
        Forall (fun l => Anchor.id l <> JsString.lit "prev_chap"
                         /\ Anchor.id l <> JsString.lit "next_chap") other ->
        chapterLinks_of (links ++ other) = chapterLinks_of links).
Proof.
  split; [apply chapterLinks_of_prev|]. split; [apply chapterLinks_of_next|].
  intros other. induction other as [|l other IH] using rev_ind; intros Hother.
  - by rewrite app_nil_r.
  - apply Forall_app in Hother as [Hother Hl].
    apply Forall_singleton in Hl as [Hp Hn].
    rewrite app_assoc, chapterLinks_of_snoc, IH by done. unfold chapterLinks_step.
    by rewrite !bool_decide_eq_false_2 by done.
Qed.

(** X13. The text given to the pipeline is empty exactly when the page
    has no paragraph with a code unit that is not white space. *)
Theorem fullText_empty_iff (els : list jsstring) :
  JsString.join LF (paragraphs_of els) = []
  <-> Forall (fun e => ~ Exists visible e) els.
Proof.
  pose proof (paragraphs_of_Forall_clean els) as Hclean.
  rewrite join_nil_iff; [|done|].
  - rewrite paragraphs_of_filter. split.
    + intros Hnone%fmap_nil_inv. apply Forall_forall. intros e He Hvis.
      by apply (filter_nil_not_elem_of _ _ e Hnone Hvis).
    + intros Hall. destruct (filter (Exists visible) els) as [|e kept] eqn:Hkept; [done|].
      assert (e ∈ filter (Exists visible) els) as Hin by (rewrite Hkept; left).
      apply list_elem_of_filter in Hin as [Hvis He].
      rewrite Forall_forall in Hall. by destruct (Hall e He).
  - eapply Forall_impl; [exact Hclean|]. by intros p (Hp & _).
Qed.

(** ** The handler *)

Lemma run_trace_nonempty ai fullText : (summarizeLongText fullText ai []).2 <> [].
Proof.
  destruct (summarizeLongText_run ai fullText) as (chunks & Hchunks & _).
  destruct (summarizeLongText fullText ai []) as [c tr] eqn:Hrun. simpl.
  destruct (run_cases _ _ _ _ _ Hchunks Hrun)
    as [(_ & o & _ & ->) | (xs1 & x & xs2 & e & _ & _ & _ & _ & ->)];
    rewrite events_of_app, events_of_cons; by intros [_ ?]%app_eq_nil.
Qed.

Lemma empty_text_run ai :
  summarizeLongText [] ai []
  = (completion_of (ai [] (final_request [])),
     [Call (final_request []); Settle (ai [] (final_request []))]).
Proof.
  destruct (summarizeLongText_run ai []) as (chunks & Hchunks & Hok & _).
  assert (chunks = []) as -> by (by injection Hchunks).
  exact (Hok (Forall_nil_2 _)).
Qed.

(** The handler on a page that was evaluated and a browser that closed. *)
Lemma scrape_evaluated (u : jsstring) web ai els links :
  u <> [] ->
  web u = Evaluated els links None ->
  scrape (Some u) web ai
  = let run := summarizeLongText (JsString.join LF (paragraphs_of els)) ai [] in
    match run.1 with
    | Returned summary =>
        {| response := Some (Success (length (paragraphs_of els)) summary
                               (prev (chapterLinks_of links))
                               (next (chapterLinks_of links)) u);
           launched := true; closes := 1; provider_trace := run.2 |}
    | Threw e =>
        {| response := Some (Failure (message e));
           launched := true; closes := 2; provider_trace := run.2 |}
    | Unfinished =>
        {| response := None; launched := true; closes := 1; provider_trace := run.2 |}
    end.
Proof.
  intros Hu Hweb. unfold scrape, scrape_respond.
  rewrite bool_decide_eq_false_2, Hweb by done.
  by destruct (summarizeLongText _ ai []) as [[summary | e |] tr].
Qed.

(** X14. The handler always sends a response, and it says
    [success: true] exactly when a URL was given, the page was evaluated,
    the browser closed and the pipeline returned. *)
Theorem scrape_success_iff (url : option jsstring) (web : jsstring -> Scraping)
    (ai : Provider) :
  exists r,
    response (scrape url web ai) = Some r
    /\ (succeeded r = true
        <-> exists u els links final tr,
              url = Some u /\ u <> []
              /\ web u = Evaluated els links None
              /\ summarizeLongText (JsString.join LF (paragraphs_of els)) ai []
                 = (Returned final, tr)).
Proof.
  destruct url as [u|]; [destruct (decide (u = [])) as [-> | Hu]|].
  - eexists. split; [reflexivity|]. split; [done|].
    by intros (? & ? & ? & ? & ? & [= <-] & ? & _).
  - destruct (web u) as [e | e | els links [e|]] eqn:Hweb.
    1-3: unfold scrape; rewrite bool_decide_eq_false_2, Hweb by done;
      (eexists; split; [reflexivity|]); (split; [done|]);
      intros (? & ? & ? & ? & ? & [= <-] & _ & ? & _); congruence.
    rewrite (scrape_evaluated u web ai els links Hu Hweb). cbv zeta.
    destruct (summarizeLongText_finishes ai (JsString.join LF (paragraphs_of els)))
      as (c & tr & Hrun & Hc & _).
    rewrite Hrun. simpl. destruct c as [summary | e |]; [| |done].
    + eexists. split; [reflexivity|]. split; [|done].
      intros _. by exists u, els, links, summary, tr.
    + eexists. split; [reflexivity|]. split; [done|].
      intros (? & ? & ? & ? & ? & [= <-] & _ & Hweb' & Hrun').
      rewrite Hweb in Hweb'. injection Hweb' as <- <-. congruence.
  - eexists. split; [reflexivity|]. split; [done|].
    by intros (? & ? & ? & ? & ? & [=] & _).
Qed.

(** X15. What a success response holds: the URL asked for; as [count]
    the number of paragraphs with a code unit that is not white space;
    the links of the last [prev_chap] and [next_chap] anchors; a summary
    that neither starts nor ends with white space. The browser was
    closed once, and the provider got one call per chunk of the joined
    paragraphs plus one. *)
Theorem scrape_success_content (url : option jsstring) (web : jsstring -> Scraping)
    (ai : Provider) (count : nat) (summary : jsstring)
    (prevChapter nextChapter : option jsstring) (currentUrl : jsstring) :
  response (scrape url web ai)
  = Some (Success count summary prevChapter nextChapter currentUrl) ->
  exists els links,
    url = Some currentUrl /\ currentUrl <> []
    /\ web currentUrl = Evaluated els links None
    /\ count = length (filter (Exists visible) els)
    /\ prevChapter
       = last (Anchor.href <$> filter (fun l => Anchor.id l = JsString.lit "prev_chap") links)
    /\ nextChapter
       = last (Anchor.href <$> filter (fun l => Anchor.id l = JsString.lit "next_chap") links)
    /\ (forall u, head summary = Some u -> visible u)
    /\ (forall u, last summary = Some u -> visible u)
    /\ closes (scrape url web ai) = 1%nat
    /\ Z.of_nat (length (requests (provider_trace (scrape url web ai))))
       = ceil_div
           (JsString.len
              (JsString.join LF (JsString.trim <$> filter (Exists visible) els)))
           default_chunkSize + 1.
Proof.
  intros Hresp.
  destruct url as [u|]; [destruct (decide (u = [])) as [-> | Hu]|]; [done | | done].
  destruct (web u) as [e | e | els links [e|]] eqn:Hweb.
  1-3: unfold scrape in Hresp; rewrite bool_decide_eq_false_2, Hweb in Hresp by done;
    done.
  rewrite (scrape_evaluated u web ai els links Hu Hweb) in Hresp |- *. cbv zeta in *.
  destruct (summarizeLongText (JsString.join LF (paragraphs_of els)) ai [])
    as [c tr] eqn:Hrun.
  simpl in Hresp |- *. destruct c as [final | e |]; [|done..].
  injection Hresp as <- <- <- <- <-. simpl.
  pose proof (paragraphs_of_filter els) as Hkept.
  assert (length (paragraphs_of els) = length (filter (Exists visible) els)) as Hcount
    by (by rewrite Hkept, length_fmap).
  pose proof (chapterLinks_of_prev links) as Hprev.
  pose proof (chapterLinks_of_next links) as Hnext.
  destruct (chunkText_spec (JsString.join LF (paragraphs_of els)) default_chunkSize)
    as (chunks & Hchunks & _ & _ & Hn & _); [done|].
  exists els, links. repeat split; try done.
  - destruct (run_cases _ _ _ _ _ Hchunks Hrun)
      as [(_ & o & Ho & _) | (? & ? & ? & ? & _ & _ & _ & [=] & _)].
    destruct o as [[[raw|]]|]; simplify_eq/=.
    by destruct (trim_spec raw) as (_ & _ & _ & _ & _ & Hhead & _).
  - destruct (run_cases _ _ _ _ _ Hchunks Hrun)
      as [(_ & o & Ho & _) | (? & ? & ? & ? & _ & _ & _ & [=] & _)].
    destruct o as [[[raw|]]|]; simplify_eq/=.
    by destruct (trim_spec raw) as (_ & _ & _ & _ & _ & _ & Hlast).
  - destruct (run_cases _ _ _ _ _ Hchunks Hrun)
      as [(_ & o & _ & ->) | (? & ? & ? & ? & _ & _ & _ & [=] & _)].
    rewrite requests_events_of, fmap_app, exchanges_fst, length_app,
      length_chunk_requests.
    rewrite <- Hkept, <- Hn. simpl. lia.
Qed.

Lemma scrape_success_content_witness :
  let h := scrape (Some (JsString.lit "https://example.org/c2")) sample_web
             (canned (JsString.lit " ok ")) in
  response h
  = Some (Success 2 (JsString.lit "ok") (Some (JsString.lit "/c1"))
            (Some (JsString.lit "/c3")) (JsString.lit "https://example.org/c2"))
  /\ exists els links,
       Some (JsString.lit "https://example.org/c2")
       = Some (JsString.lit "https://example.org/c2")
       /\ JsString.lit "https://example.org/c2" <> []
       /\ sample_web (JsString.lit "https://example.org/c2") = Evaluated els links None
       /\ 2%nat = length (filter (Exists visible) els)
       /\ Some (JsString.lit "/c1")
          = last (Anchor.href <$> filter (fun l => Anchor.id l = JsString.lit "prev_chap") links)
       /\ Some (JsString.lit "/c3")
          = last (Anchor.href <$> filter (fun l => Anchor.id l = JsString.lit "next_chap") links)
       /\ (forall u, head (JsString.lit "ok") = Some u -> visible u)
       /\ (forall u, last (JsString.lit "ok") = Some u -> visible u)
       /\ closes h = 1%nat
       /\ Z.of_nat (length (requests (provider_trace h)))
          = ceil_div
              (JsString.len
                 (JsString.join LF (JsString.trim <$> filter (Exists visible) els)))
              default_chunkSize + 1.
Proof.
  intros h. split; [vm_compute; reflexivity|].
  apply (scrape_success_content (Some (JsString.lit "https://example.org/c2"))
           sample_web (canned (JsString.lit " ok "))).
  vm_compute; reflexivity.
Defined.


(** X17. The provider is called exactly when a URL was given, the page
    was evaluated and the browser closed; then at least one call is
    made, whatever the page holds. *)
Theorem scrape_calls_provider_iff (url : option jsstring)
    (web : jsstring -> Scraping) (ai : Provider) :
  provider_trace (scrape url web ai) <> []
  <-> exists u els links,
        url = Some u /\ u <> [] /\ web u = Evaluated els links None.
Proof.
  destruct url as [u|]; [destruct (decide (u = [])) as [-> | Hu]|].
  - split; [done|]. by intros (? & ? & ? & [= <-] & ? & _).
  - destruct (web u) as [e | e | els links [e|]] eqn:Hweb.
    1-3: unfold scrape; rewrite bool_decide_eq_false_2, Hweb by done; simpl;
      (split; [done|]); intros (? & ? & ? & [= <-] & _ & ?); congruence.
    split; [intros _; by exists u, els, links|]. intros _.
    rewrite (scrape_evaluated u web ai els links Hu Hweb). cbv zeta.
    pose proof (run_trace_nonempty ai (JsString.join LF (paragraphs_of els))) as Hne.
    by destruct (summarizeLongText _ ai []) as [[summary | e |] tr].
  - split; [done|]. by intros (? & ? & ? & [=] & _).
Qed.

(** X18. A page whose paragraphs are all blank is not turned down: the
    pipeline gets the empty text, the provider gets one call, the last
    one with no summary in it, and when that call brings a text the
    response is a success with [count] 0. *)
Theorem scrape_blank_page (u : jsstring) (web : jsstring -> Scraping)
    (ai : Provider) (els : list jsstring) (links : list Anchor.t) :
  u <> [] ->
  web u = Evaluated els links None ->
  Forall (fun e => ~ Exists visible e) els ->
  let outcome := ai [] (final_request []) in
  provider_trace (scrape (Some u) web ai)
  = [Call (final_request []); Settle outcome]
  /\ response (scrape (Some u) web ai)
     = match completion_of outcome with
       | Returned summary =>
           Some (Success 0 summary (prev (chapterLinks_of links))
                   (next (chapterLinks_of links)) u)
       | Threw e => Some (Failure (message e))
       | Unfinished => None
       end.
Proof.
  intros Hu Hweb Hblank outcome.
  rewrite (scrape_evaluated u web ai els links Hu Hweb). cbv zeta.
  assert (paragraphs_of els = []) as ->.
  { rewrite paragraphs_of_filter.
    destruct (filter (Exists visible) els) as [|e kept] eqn:Hkept; [done|].
    assert (e ∈ filter (Exists visible) els) as Hin by (rewrite Hkept; left).
    apply list_elem_of_filter in Hin as [Hvis He].
    rewrite Forall_forall in Hblank. by destruct (Hblank e He). }
  change (JsString.join LF []) with (@nil N). rewrite empty_text_run. simpl.
  fold outcome. by destruct (completion_of outcome).
Qed.

Lemma scrape_blank_page_witness :
  let u := JsString.lit "https://example.org/c2" in
  let web := fun _ : jsstring => Evaluated [JsString.lit "  "; JsString.lit ""] [] None in
  let ai := canned (JsString.lit " ok ") in
  let outcome := ai [] (final_request []) in
  provider_trace (scrape (Some u) web ai)
  = [Call (final_request []); Settle outcome]
  /\ response (scrape (Some u) web ai)
     = match completion_of outcome with
       | Returned summary =>
           Some (Success 0 summary (prev (chapterLinks_of []))
                   (next (chapterLinks_of [])) u)
       | Threw e => Some (Failure (message e))
       | Unfinished => None
       end.
Proof.
  intros u web ai.
  apply (scrape_blank_page u web ai [JsString.lit "  "; JsString.lit ""] []).
  - done.
  - reflexivity.
  - repeat constructor; intros Hex; apply Exists_exists in Hex as (c & Hc & Hvis);
      repeat (apply elem_of_cons in Hc as [-> | Hc]; [vm_compute in Hvis; discriminate|]);
      by apply elem_of_nil in Hc.
Defined.
